(** * jax_shim.numpy: the [.at[key].set/add] idiom on top of the baseline arrays

    A shallow embedding of [src/jax_shim/numpy.py].  The module subclasses
    the baseline array type, so its behaviour is decided by object identity
    and aliasing: which constructor object an array's [at] attribute holds,
    and which array that constructor's [owner] field points to.  The model
    therefore keeps an explicit object store (array objects, constructor
    objects, data buffers shared between views) and threads it through
    every call.

    The baseline library itself is not part of the repository.  The model
    covers the fragment of it needed to run the shim: one-dimensional
    arrays of a fixed-width integer dtype, integer and slice keys (plus a
    key of a non-index type), and as values Python ints, flat lists of
    Python ints, integer scalars and arrays of the library, and a value
    that cannot be cast.  Indexed assignment and in-place addition follow
    the library's integer rules: a Python int outside the array's dtype is
    refused, stored array data is reduced into the dtype, and addition
    wraps around.  Floating-point values are outside the fragment. *)

From stdpp Require Import base option list strings gmap.
From Stdlib Require Import ZArith Lia.

Local Open Scope Z_scope.

(** ** Exceptions and results *)

Inductive exn : Type :=
  | IndexError
  | ValueError
  | TypeError
  | AttributeError (module_name attr : string)
  | DanglingRef   (* a reference outside the store; no Python counterpart *)
  | OverflowError
  | OutOfFragment.  (* an input the fragment does not cover *)

Inductive result (A : Type) : Type :=
  | Ok (a : A)
  | Raise (e : exn).
Arguments Ok {A} a.
Arguments Raise {A} e.

#[global] Instance result_ret : MRet result := λ A a, Ok a.
#[global] Instance result_bind : MBind result := λ A B f m,
  match m with
  | Ok a => f a
  | Raise e => Raise e
  end.

Definition of_option {A : Type} (e : exn) (o : option A) : result A :=
  match o with
  | Some a => Ok a
  | None => Raise e
  end.

(** ** The object store *)

(** References into the store. *)
Abbreviation ref := nat (only parsing).

Inductive pyclass : Type :=
  | cls_ndarray   (* numpy.ndarray *)
  | cls_array.    (* jax_shim.numpy.array *)

Inductive dtype : Type := int64 | int32.

#[global] Instance pyclass_eq_dec : EqDecision pyclass.
Proof. solve_decision. Defined.
#[global] Instance dtype_eq_dec : EqDecision dtype.
Proof. solve_decision. Defined.

(** An array object: its class, the window it views of a data buffer, and
    the [at] instance attribute ([None] when the attribute is missing). *)
Record ndobj : Type := NdObj {
  ob_class : pyclass;
  ob_base : ref;
  ob_off : nat;
  ob_len : nat;
  ob_dtype : dtype;
  at_ : option ref
}.

Inductive key : Type :=
  | KInt (i : Z)
  | KSlice (start stop : option Z)
  | KOther (s : string).   (* an object that is no index at all, e.g. a str *)

Inductive value : Type :=
  | VScalar (z : Z)        (* a Python int *)
  | VSeq (l : list Z)      (* a flat list of Python ints *)
  | VStr (s : string)      (* a value with no cast to the array's dtype *)
  | VNum (dt : dtype) (z : Z)        (* an integer scalar of the library *)
  | VArr (dt : dtype) (l : list Z).  (* a one-dimensional integer array *)

(** What the array constructor accepts: a flat sequence or an existing
    array object. *)
Inductive array_like : Type :=
  | FromSeq (l : list Z)
  | FromArr (a : ref).

(** The two helper classes hold plain references: an operation is
    (owner, key), a constructor is (owner). *)
Record at_op : Type := AtOp { op_owner : ref; op_key : key }.

Record at_constructor : Type := AtCtor { ctor_owner : ref }.

Record heap : Type := Heap {
  bufs : list (list Z);
  objs : list ndobj;
  ctors : list at_constructor
}.

Definition get_obj (h : heap) (a : ref) : result ndobj :=
  of_option DanglingRef (objs h !! a).

Definition get_ctor (h : heap) (c : ref) : result at_constructor :=
  of_option DanglingRef (ctors h !! c).

Definition alloc_obj (h : heap) (o : ndobj) : heap * ref :=
  (Heap (bufs h) (objs h ++ [o]) (ctors h), length (objs h)).

Definition alloc_buf (h : heap) (l : list Z) : heap * ref :=
  (Heap (bufs h ++ [l]) (objs h) (ctors h), length (bufs h)).

(** [getattr(obj, "at", None)]: a plain baseline array has no instance
    dictionary, so the lookup falls back to the default. *)
Definition getattr_at (h : heap) (a : ref) : option ref :=
  o ← objs h !! a;
  match ob_class o with
  | cls_ndarray => None
  | cls_array => at_ o
  end.

Definition with_at (c : ref) (o : ndobj) : ndobj :=
  NdObj (ob_class o) (ob_base o) (ob_off o) (ob_len o) (ob_dtype o) (Some c).

(** [a.at = c] *)
Definition setattr_at (h : heap) (a c : ref) : heap :=
  Heap (bufs h) (alter (with_at c) a (objs h)) (ctors h).

Definition alloc_ctor (h : heap) (c : at_constructor) : heap * ref :=
  (Heap (bufs h) (objs h) (ctors h ++ [c]), length (ctors h)).

(** The elements an array object views. *)
Definition window (o : ndobj) (buf : list Z) : list Z :=
  take (ob_len o) (drop (ob_off o) buf).

Definition elems (h : heap) (a : ref) : result (list Z) :=
  o ← get_obj h a;
  buf ← of_option DanglingRef (bufs h !! ob_base o);
  mret (window o buf).

(** ** The baseline library (fragment) *)

Module np.

(** Integer index on an axis of length [n], negative indices counted from
    the end. *)
Definition norm_index (n : nat) (i : Z) : result nat :=
  if bool_decide (0 ≤ i < Z.of_nat n) then Ok (Z.to_nat i)
  else if bool_decide (- Z.of_nat n ≤ i < 0) then Ok (Z.to_nat (Z.of_nat n + i))
  else Raise IndexError.

(** One bound of a slice of step 1, clipped as [slice.indices] does. *)
Definition slice_bound (n : nat) (dflt : Z) (b : option Z) : nat :=
  match b with
  | None => Z.to_nat dflt
  | Some i => if bool_decide (i < 0) then Z.to_nat (Z.max 0 (i + Z.of_nat n))
              else Z.to_nat (Z.min i (Z.of_nat n))
  end.

(** What a key selects on an axis of length [n]: one item, or a run of
    [m] consecutive items from [s]. *)
Inductive selection : Type :=
  | SelItem (p : nat)
  | SelRange (s m : nat).

Definition resolve (n : nat) (k : key) : result selection :=
  match k with
  | KInt i => p ← norm_index n i; mret (SelItem p)
  | KSlice lo hi =>
      let s := slice_bound n 0 lo in
      let e := slice_bound n (Z.of_nat n) hi in
      mret (SelRange s (e - s)%nat)
  | KOther _ => Raise IndexError
  end.

Definition sel_start (sel : selection) : nat :=
  match sel with SelItem p => p | SelRange s _ => s end.

Definition sel_count (sel : selection) : nat :=
  match sel with SelItem _ => 1%nat | SelRange _ m => m end.

(** The integers of a dtype, and reduction into them (two's complement). *)
Definition half (dt : dtype) : Z :=
  match dt with
  | int64 => 2 ^ 63
  | int32 => 2 ^ 31
  end.

Definition in_range (dt : dtype) (z : Z) : Prop := - half dt ≤ z < half dt.

Definition wrap (dt : dtype) (z : Z) : Z :=
  (z + half dt) mod (2 * half dt) - half dt.

(** The dtype of the sum of two integer scalars or arrays. *)
Definition promote (d1 d2 : dtype) : dtype :=
  match d1, d2 with
  | int32, int32 => int32
  | _, _ => int64
  end.

(** A right-hand side once the library has looked at it: one number, or
    the elements of an array. *)
Inductive operand : Type :=
  | OScalar (z : Z)
  | OArray (l : list Z).

(** The values the fragment covers: a scalar or array of the library
    holds integers of its own dtype, and a list of Python ints becomes an
    [int64] array, which takes ints within [int64]. *)
Definition value_ok (v : value) : Prop :=
  match v with
  | VScalar _ | VStr _ => True
  | VSeq l => Forall (in_range int64) l
  | VNum dt z => in_range dt z
  | VArr dt l => Forall (in_range dt) l
  end.

#[global] Instance in_range_dec dt z : Decision (in_range dt z).
Proof. unfold in_range. apply _. Defined.

#[global] Instance value_ok_dec v : Decision (value_ok v).
Proof. destruct v; simpl; apply _. Defined.

(** The right-hand side of [a[k] = v] for an array of dtype [dt].  A
    Python int must lie in the dtype; data that is already an array is
    cast into the dtype. *)
Definition coerce_set (dt : dtype) (v : value) : result operand :=
  if bool_decide (value_ok v) then
    match v with
    | VScalar z =>
        if bool_decide (in_range dt z) then Ok (OScalar z) else Raise OverflowError
    | VNum _ z => Ok (OScalar (wrap dt z))
    | VSeq l | VArr _ l => Ok (OArray (wrap dt <$> l))
    | VStr _ => Raise ValueError
    end
  else Raise OutOfFragment.

(** The right-hand side of [a[k] += v] for an array view of dtype [dt].
    The empty list is a floating-point array, which the in-place addition
    refuses to cast. *)
Definition coerce_add (dt : dtype) (v : value) : result operand :=
  if bool_decide (value_ok v) then
    match v with
    | VScalar z =>
        if bool_decide (in_range dt z) then Ok (OScalar z) else Raise OverflowError
    | VNum _ z => Ok (OScalar z)
    | VSeq [] => Raise TypeError
    | VSeq l | VArr _ l => Ok (OArray l)
    | VStr _ => Raise TypeError
    end
  else Raise OutOfFragment.

(** Broadcasting a right-hand side against a selection.  An array never
    fits a single item. *)
Definition broadcast_to (sel : selection) (op : operand) : result (list Z) :=
  match op with
  | OScalar z => Ok (replicate (sel_count sel) z)
  | OArray l =>
      match sel with
      | SelItem _ => Raise ValueError
      | SelRange _ m =>
          if bool_decide (length l = m) then Ok l
          else match l with
               | [z] => Ok (replicate m z)
               | _ => Raise ValueError
               end
      end
  end.

(** What [a[k] = v] stores, and what [a[k] += v] adds, element by element. *)
Definition store_values (dt : dtype) (sel : selection) (v : value)
  : result (list Z) :=
  op ← coerce_set dt v;
  broadcast_to sel op.

Definition addend (dt : dtype) (sel : selection) (v : value)
  : result (list Z) :=
  op ← coerce_add dt v;
  broadcast_to sel op.


(** [a[k]] read as a value: a scalar of the library for an integer key, a
    view of the selected elements for a slice. *)
Definition getitem (h : heap) (a : ref) (k : key) : result value :=
  o ← get_obj h a;
  sel ← resolve (ob_len o) k;
  buf ← of_option DanglingRef (bufs h !! ob_base o);
  match sel with
  | SelItem p =>
      z ← of_option IndexError (window o buf !! p); mret (VNum (ob_dtype o) z)
  | SelRange s m => mret (VArr (ob_dtype o) (take m (drop s (window o buf))))
  end.

(** [a[k] = v]: in-place indexed assignment into the buffer [a] views. *)
Definition setitem (h : heap) (a : ref) (k : key) (v : value) : result heap :=
  o ← get_obj h a;
  sel ← resolve (ob_len o) k;
  vals ← store_values (ob_dtype o) sel v;
  buf ← of_option DanglingRef (bufs h !! ob_base o);
  mret (Heap (<[ob_base o := list_inserts (ob_off o + sel_start sel) vals buf]> (bufs h))
             (objs h) (ctors h)).

(** [x += v] on what [getitem] returned.  A view is added to in place and
    keeps its shape and dtype, wrapping around; a scalar has no in-place
    addition, so [x + v] is computed: a scalar for a number, an array for
    an array.  Anything else is not a result of [getitem]. *)
Definition iadd (x v : value) : result value :=
  match x with
  | VArr dt xs =>
      bv ← addend dt (SelRange 0 (length xs)) v;
      mret (VArr dt (wrap dt <$> zip_with Z.add xs bv))
  | VNum dt z =>
      if bool_decide (value_ok v) then
        match v with
        | VScalar b =>
            if bool_decide (in_range dt b) then Ok (VNum dt (wrap dt (z + b)))
            else Raise OverflowError
        | VNum dt' b => Ok (VNum (promote dt dt') (wrap (promote dt dt') (z + b)))
        | VSeq [] => Ok (VSeq [])
        | VSeq l =>
            Ok (VArr (promote dt int64) (wrap (promote dt int64) <$> (Z.add z <$> l)))
        | VArr dt' l =>
            Ok (VArr (promote dt dt') (wrap (promote dt dt') <$> (Z.add z <$> l)))
        | VStr _ => Raise TypeError
        end
      else Raise OutOfFragment
  | _ => Raise OutOfFragment
  end.

(** Operations of the baseline library that create array objects.  Each
    one ends by calling the [__array_finalize__] hook of the new object's
    class, with the object it was derived from (or [None]). *)
Section derivations.
Variable finalize : pyclass → heap → ref → option ref → heap.

(** Every such operation allocates the new object, without attributes,
    and then runs the hook on it. *)
Definition derive (h : heap) (o : ndobj) (src : option ref) : heap * ref :=
  let '(h1, r) := alloc_obj h o in
  (finalize (ob_class o) h1 r src, r).

(** [np.ndarray.__new__(cls, (n,), dtype)]: explicit allocation, no source. *)
Definition ndarray_new (h : heap) (cls : pyclass) (n : nat) (dt : dtype)
  : heap * ref :=
  let '(h1, b) := alloc_buf h (replicate n 0) in
  derive h1 (NdObj cls b 0 n dt None) None.

(** [src.view(cls)]: a new object of class [cls] on the same data. *)
Definition view (h : heap) (src : ref) (cls : pyclass) : result (heap * ref) :=
  o ← get_obj h src;
  mret (derive h (NdObj cls (ob_base o) (ob_off o) (ob_len o) (ob_dtype o) None)
               (Some src)).

(** [src[lo:hi]]: basic slicing, a view of the class of [src]. *)
Definition getitem_slice (h : heap) (src : ref) (lo hi : option Z)
  : result (heap * ref) :=
  o ← get_obj h src;
  let s := slice_bound (ob_len o) 0 lo in
  let e := slice_bound (ob_len o) (Z.of_nat (ob_len o)) hi in
  mret (derive h (NdObj (ob_class o) (ob_base o) (ob_off o + s) (e - s)
                        (ob_dtype o) None)
               (Some src)).

(** [src + z]: an arithmetic result, of the class of [src], on new data. *)
Definition add_scalar (h : heap) (src : ref) (z : Z) : result (heap * ref) :=
  o ← get_obj h src;
  buf ← of_option DanglingRef (bufs h !! ob_base o);
  let '(h1, b) := alloc_buf h ((λ x, x + z) <$> window o buf) in
  mret (derive h1 (NdObj (ob_class o) b 0 (ob_len o) (ob_dtype o) None)
               (Some src)).

End derivations.

(** [np.asarray(d)]: a sequence becomes a new baseline array; a baseline
    array is returned as it is; an instance of a subclass is viewed as a
    baseline array on the same data.  The result is always of the base
    class, whose finalize hook does nothing. *)
Definition asarray (h : heap) (d : array_like) : result (heap * ref) :=
  match d with
  | FromSeq l =>
      let '(h1, b) := alloc_buf h l in
      mret (alloc_obj h1 (NdObj cls_ndarray b 0 (length l) int64 None))
  | FromArr a =>
      o ← get_obj h a;
      match ob_class o with
      | cls_ndarray => mret (h, a)
      | cls_array =>
          mret (alloc_obj h (NdObj cls_ndarray (ob_base o) (ob_off o) (ob_len o)
                                   (ob_dtype o) None))
      end
  end.

End np.

(** ** The module [jax_shim.numpy] *)

Module _AtOp.

Definition __init__ (owner : ref) (key : key) : at_op := AtOp owner key.

(** [self.owner[self.key] = value] *)
Definition set (h : heap) (self : at_op) (value : value) : result (heap * unit) :=
  h' ← np.setitem h (op_owner self) (op_key self) value;
  mret (h', tt).

(** [self.owner[self.key] += value] *)
Definition add (h : heap) (self : at_op) (value : value) : result (heap * unit) :=
  x ← np.getitem h (op_owner self) (op_key self);
  y ← np.iadd x value;
  h' ← np.setitem h (op_owner self) (op_key self) y;
  mret (h', tt).

End _AtOp.

Module _AtConstructor.

(** [_AtConstructor(owner)]: a new constructor object in the store. *)
Definition __init__ (h : heap) (owner : ref) : heap * ref :=
  alloc_ctor h (AtCtor owner).

Definition __getitem__ (self : at_constructor) (key : key) : at_op :=
  _AtOp.__init__ (ctor_owner self) key.

End _AtConstructor.

Module array.

Definition __array_finalize__ (h : heap) (self : ref) (obj : option ref) : heap :=
  match obj with
  | None => h
  | Some obj =>
      match getattr_at h obj with
      | None =>
          let '(h1, c) := _AtConstructor.__init__ h obj in
          setattr_at h1 self c
      | Some at_constructor => setattr_at h self at_constructor
      end
  end.

(** The hook the baseline library finds on each class: the base class has
    none. *)
Definition finalize (cls : pyclass) : heap → ref → option ref → heap :=
  match cls with
  | cls_ndarray => λ h _ _, h
  | cls_array => __array_finalize__
  end.

Definition __new__ (h : heap) (input_array : array_like) : result (heap * ref) :=
  '(h1, a) ← np.asarray h input_array;
  '(h2, obj) ← np.view finalize h1 a cls_array;
  let '(h3, c) := _AtConstructor.__init__ h2 obj in
  mret (setattr_at h3 obj c, obj).

End array.

(** [A.at]: plain attribute access, an error when the attribute is missing. *)
Definition get_at (h : heap) (a : ref) : result ref :=
  of_option (AttributeError "array" "at") (getattr_at h a).

(** [A.at[k]] *)
Definition at_subscript (h : heap) (a : ref) (k : key) : result at_op :=
  c ← get_at h a;
  ctor ← get_ctor h c;
  mret (_AtConstructor.__getitem__ ctor k).

(** [A.at[k].set(v)] and [A.at[k].add(v)] *)
Definition at_set (h : heap) (a : ref) (k : key) (v : value)
  : result (heap * unit) :=
  op ← at_subscript h a k;
  _AtOp.set h op v.

Definition at_add (h : heap) (a : ref) (k : key) (v : value)
  : result (heap * unit) :=
  op ← at_subscript h a k;
  _AtOp.add h op v.

(** The module-level forwarder.  Attribute access on a module looks in the
    module's own dictionary first and calls the module's [__getattr__]
    only for a name that is not there. *)
Section forwarder.
Variable np_dict : gmap string ref.     (* the baseline library's names *)
Variable module_dict : gmap string ref. (* the names defined in this module *)

(** [getattr(np, attr)] *)
Definition np_getattr (attr : string) : result ref :=
  of_option (AttributeError "numpy" attr) (np_dict !! attr).

Definition __getattr__ (attr : string) : result ref :=
  np_getattr attr.

Definition module_getattr (attr : string) : result ref :=
  match module_dict !! attr with
  | Some v => Ok v
  | None => __getattr__ attr
  end.

End forwarder.

(** ** Stores a program can reach *)

Definition empty_heap : heap := Heap [] [] [].

(** One call of the client program: building arrays (with the module's
    constructor or with the baseline library), deriving arrays (view, slice,
    arithmetic), and updating them, through [at] or by plain indexed
    assignment.  Explicit allocation of an Augmented Array with no source,
    [np.ndarray_new], is not among them. *)
Inductive step : heap → heap → Prop :=
  | step_new h d h' a :
      array.__new__ h d = Ok (h', a) → step h h'
  | step_asarray h d h' a :
      np.asarray h d = Ok (h', a) → step h h'
  | step_view h src cls h' a :
      np.view array.finalize h src cls = Ok (h', a) → step h h'
  | step_slice h src lo hi h' a :
      np.getitem_slice array.finalize h src lo hi = Ok (h', a) → step h h'
  | step_arith h src z h' a :
      np.add_scalar array.finalize h src z = Ok (h', a) → step h h'
  | step_setitem h a k v h' :
      np.setitem h a k v = Ok h' → step h h'
  | step_at_set h a k v h' :
      at_set h a k v = Ok (h', tt) → step h h'
  | step_at_add h a k v h' :
      at_add h a k v = Ok (h', tt) → step h h'.

Definition reachable (h : heap) : Prop := rtc step empty_heap h.

(** [a] is an Augmented Array of the store. *)
Definition augmented (h : heap) (a : ref) : Prop :=
  ∃ o, objs h !! a = Some o ∧ ob_class o = cls_array.

(** [a.at] is a constructor object whose [owner] is [w]. *)
Definition at_owner (h : heap) (a w : ref) : Prop :=
  ∃ c, getattr_at h a = Some c ∧ ctors h !! c = Some (AtCtor w).

Definition self_owned (h : heap) (a : ref) : Prop := at_owner h a a.

(** Two array objects view the same elements of the same buffer. *)
Definition same_window (h : heap) (a b : ref) : Prop :=
  ∃ oa ob, objs h !! a = Some oa ∧ objs h !! b = Some ob ∧
    ob_base oa = ob_base ob ∧ ob_off oa = ob_off ob ∧ ob_len oa = ob_len ob.

(** Element [i] of array [a], and cell [j] of buffer [b]. *)
Definition item (h : heap) (a : ref) (i : nat) : option Z :=
  o ← objs h !! a;
  buf ← bufs h !! ob_base o;
  window o buf !! i.

Definition cell (h : heap) (b : ref) (j : nat) : option Z :=
  buf ← bufs h !! b;
  buf !! j.

(** The elements of a value read with [np.getitem]. *)
Definition value_elems (x : value) : list Z :=
  match x with
  | VScalar z => [z]
  | VSeq l => l
  | VStr _ => []
  | VNum _ z => [z]
  | VArr _ l => l
  end.

(** What [k] selects on array [a]. *)
Definition selection_of (h : heap) (a : ref) (k : key) : result np.selection :=
  o ← get_obj h a;
  np.resolve (ob_len o) k.

Definition in_selection (sel : np.selection) (i : nat) : Prop :=
  (np.sel_start sel ≤ i < np.sel_start sel + np.sel_count sel)%nat.

(** The references an input mentions are live. *)
Definition input_ok (h : heap) (d : array_like) : Prop :=
  match d with
  | FromSeq _ => True
  | FromArr a => is_Some (objs h !! a)
  end.

(** Store invariant: windows lie inside their buffers, an Augmented Array
    carries a live constructor, a baseline array carries none, and a
    constructor's owner is a live array. *)
Record heap_ok (h : heap) : Prop := HeapOk {
  ok_window : ∀ a o, objs h !! a = Some o →
    ∃ buf, bufs h !! ob_base o = Some buf ∧ (ob_off o + ob_len o ≤ length buf)%nat;
  ok_at : ∀ a o, objs h !! a = Some o →
    match ob_class o with
    | cls_array => ∃ c, at_ o = Some c ∧ (c < length (ctors h))%nat
    | cls_ndarray => at_ o = None
    end;
  ok_owner : ∀ c k, ctors h !! c = Some k → (ctor_owner k < length (objs h))%nat
}.

(** Every array of the store holds integers of its dtype. *)
Definition int_data (h : heap) : Prop :=
  Forall (λ o, ∀ buf, bufs h !! ob_base o = Some buf →
                      Forall (np.in_range (ob_dtype o)) (window o buf))
         (objs h).

(** The stores reached through stores of integer arrays only.  There
    [np.asarray] was given lists of ints within [int64], for which its
    result is an [int64] array as the model has it, and no arithmetic
    result left the dtype. *)
Definition int_reachable (h : heap) : Prop :=
  rtc (λ h1 h2, step h1 h2 ∧ int_data h2) empty_heap h.

(** ** Example stores *)

(** After [A = array([1, 2, 3, 4])]: object 0 is the baseline array that
    [np.asarray] built, object 1 is [A]. *)
Definition heap_A : heap :=
  Heap [[1; 2; 3; 4]]
       [NdObj cls_ndarray 0 0 4 int64 None;
        NdObj cls_array 0 0 4 int64 (Some 1%nat)]
       [AtCtor 0; AtCtor 1].

(** After [B = A[1:]]: object 2 is [B]. *)
Definition heap_AB : heap :=
  Heap [[1; 2; 3; 4]]
       [NdObj cls_ndarray 0 0 4 int64 None;
        NdObj cls_array 0 0 4 int64 (Some 1%nat);
        NdObj cls_array 0 1 3 int64 (Some 1%nat)]
       [AtCtor 0; AtCtor 1].

(** After [P = np.asarray([1, 2, 3])]: object 0 is the baseline array [P]. *)
Definition heap_P : heap :=
  Heap [[1; 2; 3]] [NdObj cls_ndarray 0 0 3 int64 None] [].

(** After [E = np.ndarray.__new__(array, (2,))]: object 0 is [E], an
    Augmented Array allocated with no source. *)
Definition heap_E : heap :=
  Heap [[0; 0]] [NdObj cls_array 0 0 2 int64 None] [].

(** After [V = P.view(array)]: object 1 is [V]. *)
Definition heap_PV : heap :=
  Heap [[1; 2; 3]]
       [NdObj cls_ndarray 0 0 3 int64 None;
        NdObj cls_array 0 0 3 int64 (Some 0%nat)]
       [AtCtor 0].

(** [r] is the array object a derivation of the baseline library made
    from [src]: a view as an Augmented Array, a slice, or an arithmetic
    result. *)
Definition derived_from (h : heap) (src : ref) (h' : heap) (r : ref) : Prop :=
  np.view array.finalize h src cls_array = Ok (h', r) ∨
  (∃ lo hi, np.getitem_slice array.finalize h src lo hi = Ok (h', r)) ∨
  (∃ z, np.add_scalar array.finalize h src z = Ok (h', r)).

(** ** Auxiliary facts *)

Lemma bind_Ok {A B : Type} (m : result A) (f : A → result B) (b : B) :
  m ≫= f = Ok b ↔ ∃ a, m = Ok a ∧ f a = Ok b.
Proof.
  destruct m as [a|e]; simpl; split.
  - eauto.
  - by intros (a' & [= ->] & ?).
  - discriminate.
  - by intros (? & [=] & _).
Qed.

Lemma of_option_Ok {A : Type} (e : exn) (o : option A) (a : A) :
  of_option e o = Ok a ↔ o = Some a.
Proof. destruct o; simpl; split; congruence. Qed.

Lemma Ok_inj {A : Type} (a b : A) : Ok a = Ok b → a = b.
Proof. congruence. Qed.

Ltac inv_ok :=
  repeat match goal with
  | H : _ ≫= _ = Ok _ |- _ => apply bind_Ok in H; destruct H as (? & ? & H)
  | H : of_option _ _ = Ok _ |- _ => apply of_option_Ok in H
  | H : get_obj _ _ = Ok _ |- _ => apply of_option_Ok in H
  | H : get_ctor _ _ = Ok _ |- _ => apply of_option_Ok in H
  | H : mret _ = Ok _ |- _ => apply Ok_inj in H
  | H : Ok _ = Ok _ |- _ => apply Ok_inj in H
  end.

Lemma getattr_at_alloc h o a :
  (a < length (objs h))%nat →
  getattr_at (alloc_obj h o).1 a = getattr_at h a.
Proof. intros Ha. unfold getattr_at. simpl. by rewrite lookup_app_l. Qed.

Lemma alter_snoc {A : Type} (f : A → A) (l : list A) (x : A) :
  alter f (length l) (l ++ [x]) = l ++ [f x].
Proof.
  replace (length l) with (length l + 0)%nat at 1 by lia.
  by rewrite alter_app_r.
Qed.

(** The store a derivation returns, spelled out. *)
Lemma derive_plain h o src :
  ob_class o = cls_ndarray →
  np.derive array.finalize h o src
  = (Heap (bufs h) (objs h ++ [o]) (ctors h), length (objs h)).
Proof. intros Hc. unfold np.derive. simpl. by rewrite Hc. Qed.

Lemma derive_none h o :
  np.derive array.finalize h o None
  = (Heap (bufs h) (objs h ++ [o]) (ctors h), length (objs h)).
Proof. unfold np.derive. simpl. by destruct (ob_class o). Qed.

Lemma derive_reuse h o src c :
  ob_class o = cls_array →
  (src < length (objs h))%nat →
  getattr_at h src = Some c →
  np.derive array.finalize h o (Some src)
  = (Heap (bufs h) (objs h ++ [with_at c o]) (ctors h), length (objs h)).
Proof.
  intros Hc Hsrc Hat. unfold np.derive.
  pose proof (getattr_at_alloc h o src Hsrc) as Hg. simpl in *.
  rewrite Hc. simpl. rewrite Hg, Hat. unfold setattr_at. simpl.
  by rewrite alter_snoc.
Qed.

Lemma derive_first h o src :
  ob_class o = cls_array →
  (src < length (objs h))%nat →
  getattr_at h src = None →
  np.derive array.finalize h o (Some src)
  = (Heap (bufs h) (objs h ++ [with_at (length (ctors h)) o])
          (ctors h ++ [AtCtor src]),
     length (objs h)).
Proof.
  intros Hc Hsrc Hat. unfold np.derive.
  pose proof (getattr_at_alloc h o src Hsrc) as Hg. simpl in *.
  rewrite Hc. simpl. rewrite Hg, Hat. unfold setattr_at. simpl.
  by rewrite alter_snoc.
Qed.

Lemma heap_ok_empty : heap_ok empty_heap.
Proof. split; simpl; intros *; by rewrite ?lookup_nil. Qed.

Lemma heap_ok_extend h o cs :
  heap_ok h →
  (∃ buf, bufs h !! ob_base o = Some buf ∧ (ob_off o + ob_len o ≤ length buf)%nat) →
  match ob_class o with
  | cls_array => ∃ c, at_ o = Some c ∧ (c < length (ctors h ++ cs))%nat
  | cls_ndarray => at_ o = None
  end →
  Forall (λ k, ctor_owner k < S (length (objs h)))%nat cs →
  heap_ok (Heap (bufs h) (objs h ++ [o]) (ctors h ++ cs)).
Proof.
  intros [Hw Ha Ho] Hwo Hao Hcs. split; simpl.
  - intros a o' Hl. apply lookup_snoc_Some in Hl as [[_ Hl]|[_ <-]]; eauto.
  - intros a o' Hl. apply lookup_snoc_Some in Hl as [[_ Hl]|[_ <-]]; [|done].
    specialize (Ha a o' Hl). destruct (ob_class o'); [done|].
    destruct Ha as (c & ? & ?). exists c. rewrite length_app. split; [done|lia].
  - intros c k Hl. rewrite length_app. simpl.
    apply lookup_app_Some in Hl as [Hl|[_ Hl]].
    + specialize (Ho c k Hl). lia.
    + rewrite Forall_lookup in Hcs. specialize (Hcs _ _ Hl). simpl in Hcs. lia.
Qed.

Lemma heap_ok_alloc_buf h l :
  heap_ok h → heap_ok (Heap (bufs h ++ [l]) (objs h) (ctors h)).
Proof.
  intros [Hw Ha Ho]. split; simpl; [|done..].
  intros a o Hl. destruct (Hw a o Hl) as (buf & Hb & ?).
  exists buf. split; [|done]. rewrite lookup_app_l; [done|].
  by eapply lookup_lt_Some.
Qed.

Lemma heap_ok_setitem h a k v h' :
  np.setitem h a k v = Ok h' → heap_ok h → heap_ok h'.
Proof.
  unfold np.setitem. intros H [Hw Ha Ho]. inv_ok. subst h'.
  split; simpl; [|done..].
  intros a' o' Hl. destruct (Hw a' o' Hl) as (buf & Hb & ?).
  destruct (decide (ob_base x = ob_base o')) as [Heq|Hne].
  - rewrite Heq in *. eexists. rewrite list_lookup_insert_eq
      by (by eapply lookup_lt_Some).
    split; [done|]. rewrite length_inserts. congruence.
  - exists buf. by rewrite list_lookup_insert_ne.
Qed.

(** The object [np.asarray] returns is a baseline array, and the call adds
    to the store nothing but, at most, that object and its data. *)
Lemma asarray_shape h d h1 p :
  np.asarray h d = Ok (h1, p) →
  ctors h1 = ctors h ∧
  (∃ o, objs h1 !! p = Some o ∧ ob_class o = cls_ndarray) ∧
  (heap_ok h → heap_ok h1).
Proof.
  destruct d as [l|a]; simpl.
  - intros [= <- <-]. simpl. split; [done|]. split.
    + eexists. split; [apply list_lookup_middle; done|done].
    + intros Hok. apply heap_ok_alloc_buf with (l := l) in Hok.
      pose proof (heap_ok_extend _ (NdObj cls_ndarray (length (bufs h)) 0 (length l) int64 None) [] Hok) as He.
      simpl in He. rewrite app_nil_r in He. apply He; [|done|constructor].
      exists l. split; [by apply list_lookup_middle|lia].
  - intros H. inv_ok. destruct (ob_class x) eqn:Hc; simpl in H; inv_ok.
    + simplify_eq. eauto.
    + unfold alloc_obj in H. simplify_eq. simpl. split; [done|]. split.
      * eexists. split; [apply list_lookup_middle; done|done].
      * intros Hok.
        pose proof (heap_ok_extend h (NdObj cls_ndarray (ob_base x) (ob_off x) (ob_len x) (ob_dtype x) None) [] Hok) as He.
        simpl in He. rewrite app_nil_r in He. apply He; [|done|constructor].
        by eapply ok_window.
Qed.

Lemma getattr_at_Some h a c :
  getattr_at h a = Some c ↔
  ∃ o, objs h !! a = Some o ∧ ob_class o = cls_array ∧ at_ o = Some c.
Proof.
  unfold getattr_at. destruct (objs h !! a) as [o|]; simpl.
  - destruct (ob_class o) eqn:Hc; split.
    + discriminate.
    + intros (? & [= <-] & ? & _). congruence.
    + eauto.
    + by intros (? & [= <-] & _ & ?).
  - split; [discriminate|]. by intros (? & ? & _).
Qed.

(** A derivation from a live source keeps the invariant; the new object
    takes the next free reference and no data is touched. *)
Lemma derive_ok h o src h' r :
  heap_ok h →
  at_ o = None →
  (∃ buf, bufs h !! ob_base o = Some buf ∧ (ob_off o + ob_len o ≤ length buf)%nat) →
  (src < length (objs h))%nat →
  np.derive array.finalize h o (Some src) = (h', r) →
  heap_ok h' ∧ r = length (objs h) ∧ bufs h' = bufs h.
Proof.
  intros Hok Hat Hw Hsrc Hd.
  destruct (ob_class o) eqn:Hc.
  - rewrite derive_plain in Hd by done. simplify_eq. split; [|done].
    pose proof (heap_ok_extend h o [] Hok Hw) as He.
    rewrite Hc, app_nil_r in He. apply He; [done|constructor].
  - destruct (getattr_at h src) as [c|] eqn:Hg.
    + rewrite (derive_reuse _ _ _ c) in Hd by done. simplify_eq. split; [|done].
      pose proof (heap_ok_extend h (with_at c o) [] Hok Hw) as He.
      simpl in He. rewrite Hc, app_nil_r in He. apply He; [|constructor].
      exists c. split; [done|].
      apply getattr_at_Some in Hg as (os & Hl & Hcs & Has).
      pose proof (ok_at h Hok src os Hl) as Hx. rewrite Hcs in Hx.
      destruct Hx as (c' & ? & ?). congruence.
    + rewrite derive_first in Hd by done. simplify_eq. split; [|done].
      apply (heap_ok_extend h (with_at (length (ctors h)) o) [AtCtor src] Hok Hw).
      * simpl. rewrite Hc. eexists. split; [done|]. rewrite length_app. simpl. lia.
      * repeat constructor. simpl. lia.
Qed.

(** The store [array.__new__] returns, spelled out: the input coerced by
    [np.asarray] to a baseline array [p]; the new object [a] on the same
    data; the constructor the hook made, owned by [p]; and the constructor
    the body then made, owned by [a], which is the one [a.at] holds. *)
Lemma new_shape h d h' a :
  array.__new__ h d = Ok (h', a) →
  ∃ h1 p o,
    np.asarray h d = Ok (h1, p) ∧
    objs h1 !! p = Some o ∧
    ob_class o = cls_ndarray ∧
    np.view array.finalize h1 p cls_array
    = Ok (Heap (bufs h1)
               (objs h1 ++ [NdObj cls_array (ob_base o) (ob_off o) (ob_len o)
                                  (ob_dtype o) (Some (length (ctors h1)))])
               (ctors h1 ++ [AtCtor p]), a) ∧
    a = length (objs h1) ∧
    h' = Heap (bufs h1)
              (objs h1 ++ [NdObj cls_array (ob_base o) (ob_off o) (ob_len o)
                                 (ob_dtype o) (Some (S (length (ctors h1))))])
              (ctors h1 ++ [AtCtor p; AtCtor a]).
Proof.
  unfold array.__new__. intros H.
  apply bind_Ok in H as ([h1 p] & Has & H).
  apply bind_Ok in H as ([h2 obj] & Hv & H).
  destruct (asarray_shape _ _ _ _ Has) as (_ & (o & Hp & Hc) & _).
  exists h1, p, o. split; [done|]. split; [done|]. split; [done|].
  unfold np.view, get_obj in Hv. rewrite Hp in Hv. simpl in Hv.
  assert (getattr_at h1 p = None) as Hg.
  { unfold getattr_at. rewrite Hp. simpl. by rewrite Hc. }
  rewrite derive_first in Hv; [|done|by eapply lookup_lt_Some|done].
  injection Hv as <- <-. simpl in H. injection H as <- <-.
  unfold np.view, get_obj. rewrite Hp. simpl.
  rewrite derive_first; [|done|by eapply lookup_lt_Some|done].
  split; [done|]. split; [done|].
  unfold setattr_at. simpl. rewrite alter_snoc. rewrite <- app_assoc.
  rewrite length_app. simpl. by rewrite Nat.add_1_r.
Qed.

Lemma new_total h d :
  input_ok h d → ∃ h' a, array.__new__ h d = Ok (h', a).
Proof.
  intros Hin. unfold array.__new__.
  assert (∃ h1 p, np.asarray h d = Ok (h1, p)) as (h1 & p & Has).
  { destruct d as [l|a0]; simpl; [eauto|].
    destruct Hin as [o Ho]. unfold get_obj. rewrite Ho. simpl.
    destruct (ob_class o); simpl; eauto. }
  rewrite Has. simpl.
  destruct (asarray_shape _ _ _ _ Has) as (_ & (o & Hp & Hc) & _).
  unfold np.view, get_obj. rewrite Hp. simpl.
  eexists _, _. reflexivity.
Qed.

Lemma new_ok h d h' a :
  array.__new__ h d = Ok (h', a) → heap_ok h → heap_ok h'.
Proof.
  intros Hn Hok.
  destruct (new_shape _ _ _ _ Hn) as (h1 & p & o & Has & Hp & Hc & _ & -> & ->).
  destruct (asarray_shape _ _ _ _ Has) as (_ & _ & Hok1). specialize (Hok1 Hok).
  apply (heap_ok_extend h1 _ [AtCtor p; AtCtor (length (objs h1))] Hok1).
  - simpl. by eapply ok_window.
  - simpl. eexists. split; [done|]. rewrite length_app. simpl. lia.
  - apply lookup_lt_Some in Hp. repeat constructor; simpl; lia.
Qed.

Lemma at_subscript_Ok h a k op :
  at_subscript h a k = Ok op ↔
  ∃ c w, getattr_at h a = Some c ∧ ctors h !! c = Some (AtCtor w) ∧ op = AtOp w k.
Proof.
  unfold at_subscript, get_at, get_ctor. split.
  - intros H. inv_ok. destruct x0 as [w]. simplify_eq. eauto.
  - intros (c & w & -> & Hc & ->). simpl. by rewrite Hc.
Qed.

Lemma at_set_Ok h a k v h' :
  at_set h a k v = Ok (h', tt) ↔
  ∃ w, at_owner h a w ∧ np.setitem h w k v = Ok h'.
Proof.
  unfold at_set, at_owner. split.
  - intros H. apply bind_Ok in H as (op & Hop & H).
    apply at_subscript_Ok in Hop as (c & w & ? & ? & ->).
    unfold _AtOp.set in H. simpl in H. inv_ok. simplify_eq. eauto.
  - intros (w & (c & Hg & Hc) & Hs).
    assert (at_subscript h a k = Ok (AtOp w k)) as ->
      by (apply at_subscript_Ok; eauto).
    simpl. unfold _AtOp.set. simpl. by rewrite Hs.
Qed.

Lemma at_add_Ok h a k v h' :
  at_add h a k v = Ok (h', tt) ↔
  ∃ w x y, at_owner h a w ∧ np.getitem h w k = Ok x ∧ np.iadd x v = Ok y ∧
           np.setitem h w k y = Ok h'.
Proof.
  unfold at_add, at_owner. split.
  - intros H. apply bind_Ok in H as (op & Hop & H).
    apply at_subscript_Ok in Hop as (c & w & ? & ? & ->).
    unfold _AtOp.add in H. simpl in H. inv_ok. simplify_eq. eauto 10.
  - intros (w & x & y & (c & Hg & Hc) & Hx & Hy & Hs).
    assert (at_subscript h a k = Ok (AtOp w k)) as ->
      by (apply at_subscript_Ok; eauto).
    simpl. unfold _AtOp.add. simpl. rewrite Hx. simpl. rewrite Hy. simpl.
    by rewrite Hs.
Qed.

Lemma slice_bound_le n dflt b :
  0 ≤ dflt ≤ Z.of_nat n → (np.slice_bound n dflt b ≤ n)%nat.
Proof. unfold np.slice_bound. destruct b; [case_bool_decide|]; lia. Qed.

Lemma step_ok h h' : step h h' → heap_ok h → heap_ok h'.
Proof.
  intros Hs Hok. destruct Hs as
    [h d h' a H|h d h' a H|h src cls h' a H|h src lo hi h' a H|h src z h' a H
    |h a k v h' H|h a k v h' H|h a k v h' H].
  - by eapply new_ok.
  - by eapply asarray_shape.
  - unfold np.view in H. inv_ok.
    eapply derive_ok in H as (? & _); eauto using lookup_lt_Some.
    simpl. by eapply ok_window.
  - unfold np.getitem_slice in H. inv_ok.
    eapply derive_ok in H as (? & _); eauto using lookup_lt_Some.
    simpl. destruct (ok_window h Hok _ _ H0) as (buf & ? & ?).
    exists buf. split; [done|].
    pose proof (slice_bound_le (ob_len x) 0 lo).
    pose proof (slice_bound_le (ob_len x) (Z.of_nat (ob_len x)) hi).
    lia.
  - unfold np.add_scalar in H. inv_ok. unfold alloc_buf in H. apply Ok_inj in H.
    eapply derive_ok in H as (? & _); eauto using lookup_lt_Some, heap_ok_alloc_buf.
    simpl. eexists. split; [apply list_lookup_middle; done|].
    rewrite length_fmap. unfold window. rewrite length_take, length_drop.
    destruct (ok_window h Hok _ _ H0) as (buf & ? & ?). simplify_eq. lia.
  - by eapply heap_ok_setitem.
  - apply at_set_Ok in H as (w & _ & H). by eapply heap_ok_setitem.
  - apply at_add_Ok in H as (w & x & y & _ & _ & _ & H). by eapply heap_ok_setitem.
Qed.

Lemma reachable_ok h : reachable h → heap_ok h.
Proof.
  unfold reachable. apply rtc_ind_r.
  - apply heap_ok_empty.
  - intros y z _ Hs Hy. by eapply step_ok.
Qed.

(** *** Indexed assignment on buffers *)

Lemma resolve_bounds n k sel :
  np.resolve n k = Ok sel → (np.sel_start sel + np.sel_count sel ≤ n)%nat.
Proof.
  destruct k as [i|lo hi|s]; simpl; [| |discriminate].
  - unfold np.norm_index. repeat case_bool_decide; intros [= <-]; simpl; lia.
  - intros [= <-]. simpl.
    pose proof (slice_bound_le n 0 lo). pose proof (slice_bound_le n (Z.of_nat n) hi).
    lia.
Qed.

Lemma broadcast_length sel op vals :
  np.broadcast_to sel op = Ok vals → length vals = np.sel_count sel.
Proof.
  destruct op as [z|l]; simpl.
  - intros [= <-]. by rewrite length_replicate.
  - destruct sel as [p|s m]; simpl; [done|].
    case_bool_decide; [by intros [= <-]|].
    destruct l as [|z [|??]]; intros [= <-]. by rewrite length_replicate.
Qed.

Lemma store_values_length dt sel v vals :
  np.store_values dt sel v = Ok vals → length vals = np.sel_count sel.
Proof.
  unfold np.store_values. intros H. apply bind_Ok in H as (op & _ & H).
  by eapply broadcast_length.
Qed.









(** Reading back the run of cells just written. *)
Lemma window_inserts_sel o buf s vals :
  (ob_off o + ob_len o ≤ length buf)%nat →
  (s + length vals ≤ ob_len o)%nat →
  take (length vals) (drop s (window o (list_inserts (ob_off o + s) vals buf))) = vals.
Proof.
  intros Hb Hs. apply list_eq. intros i. unfold window.
  destruct (decide (i < length vals)%nat) as [Hi|Hi].
  - rewrite lookup_take_lt, lookup_drop, lookup_take_lt, lookup_drop by lia.
    rewrite list_lookup_inserts by lia. f_equal. lia.
  - rewrite lookup_take_ge by lia. symmetry. apply lookup_ge_None. lia.
Qed.

(** Cells of the window outside the run are not touched. *)
Lemma window_inserts_frame o buf s vals i :
  ¬ (s ≤ i < s + length vals)%nat →
  window o (list_inserts (ob_off o + s) vals buf) !! i = window o buf !! i.
Proof.
  intros Hi. unfold window.
  destruct (decide (i < ob_len o)%nat).
  - rewrite !lookup_take_lt, !lookup_drop by done.
    destruct (decide (i < s)%nat).
    + by rewrite list_lookup_inserts_lt by lia.
    + by rewrite list_lookup_inserts_ge by lia.
  - by rewrite !lookup_take_ge by lia.
Qed.

Lemma setitem_Ok h w k v h' :
  np.setitem h w k v = Ok h' ↔
  ∃ o buf sel vals,
    objs h !! w = Some o ∧ bufs h !! ob_base o = Some buf ∧
    np.resolve (ob_len o) k = Ok sel ∧
    np.store_values (ob_dtype o) sel v = Ok vals ∧
    h' = Heap (<[ob_base o := list_inserts (ob_off o + np.sel_start sel) vals buf]> (bufs h))
              (objs h) (ctors h).
Proof.
  unfold np.setitem, get_obj. split.
  - intros H. inv_ok. subst h'. eauto 10.
  - intros (o & buf & sel & vals & Ho & Hbuf & Hr & Hb & ->).
    rewrite Ho. simpl. rewrite Hr. simpl. rewrite Hb. simpl. by rewrite Hbuf.
Qed.

Lemma take1_drop_lookup {A : Type} (l : list A) (p : nat) (z : A) :
  take 1 (drop p l) = [z] → l !! p = Some z.
Proof.
  intros H. assert (take 1 (drop p l) !! 0%nat = Some z) as H0 by by rewrite H.
  rewrite lookup_take_lt, lookup_drop in H0 by lia. by rewrite Nat.add_0_r in H0.
Qed.

(** What [a[k]] reads after [w[k] = v], for any array [a] that views the
    window [w] views. *)
Lemma setitem_read h w o k v sel vals :
  heap_ok h →
  objs h !! w = Some o →
  np.resolve (ob_len o) k = Ok sel →
  np.store_values (ob_dtype o) sel v = Ok vals →
  ∃ h', np.setitem h w k v = Ok h' ∧ objs h' = objs h ∧ ctors h' = ctors h ∧
    ∀ a oa, objs h !! a = Some oa →
      ob_base oa = ob_base o → ob_off oa = ob_off o → ob_len oa = ob_len o →
      ∃ x, np.getitem h' a k = Ok x ∧ value_elems x = vals.
Proof.
  intros Hok Ho Hr Hb.
  destruct (ok_window h Hok w o Ho) as (buf & Hbuf & Hle).
  eexists. split; [apply setitem_Ok; eauto 10|]. split; [done|]. split; [done|].
  intros a oa Ha Hbase Hoff Hlen.
  pose proof (resolve_bounds _ _ _ Hr) as Hbd.
  pose proof (store_values_length _ _ _ _ Hb) as Hvl.
  pose proof (window_inserts_sel o buf (np.sel_start sel) vals Hle) as Hw.
  rewrite Hvl in Hw. specialize (Hw Hbd).
  unfold np.getitem, get_obj. simpl. rewrite Ha. simpl.
  rewrite Hlen, Hr. simpl.
  rewrite Hbase, list_lookup_insert_eq by (by eapply lookup_lt_Some). simpl.
  assert (window oa = window o) as -> by (unfold window; by rewrite Hoff, Hlen).
  destruct sel as [p|s m]; simpl in *.
  - destruct vals as [|z [|??]]; simplify_eq/=.
    apply take1_drop_lookup in Hw. rewrite Hw. simpl. eauto.
  - eexists. split; [done|]. done.
Qed.










(** Everything [w[k] = v] leaves alone. *)
Lemma setitem_frame h w k v h' :
  np.setitem h w k v = Ok h' →
  ∃ o sel,
    objs h !! w = Some o ∧ np.resolve (ob_len o) k = Ok sel ∧
    objs h' = objs h ∧ ctors h' = ctors h ∧
    length (bufs h') = length (bufs h) ∧
    (∀ b j, ¬ (b = ob_base o ∧
               (ob_off o + np.sel_start sel ≤ j
                < ob_off o + np.sel_start sel + np.sel_count sel)%nat) →
            cell h' b j = cell h b j) ∧
    (∀ a oa, objs h !! a = Some oa →
       ob_base oa = ob_base o → ob_off oa = ob_off o → ob_len oa = ob_len o →
       ∀ i, ¬ in_selection sel i → item h' a i = item h a i).
Proof.
  intros H. apply setitem_Ok in H as (o & buf & sel & vals & Ho & Hbuf & Hr & Hb & ->).
  pose proof (store_values_length _ _ _ _ Hb) as Hvl.
  exists o, sel. simpl. split; [done|]. split; [done|]. split; [done|].
  split; [done|]. split; [by rewrite length_insert|]. split.
  - intros b j Hn. unfold cell. simpl.
    destruct (decide (b = ob_base o)) as [->|Hne].
    + rewrite list_lookup_insert_eq by (by eapply lookup_lt_Some).
      rewrite Hbuf. simpl.
      destruct (decide (j < ob_off o + np.sel_start sel)%nat).
      * by rewrite list_lookup_inserts_lt.
      * rewrite list_lookup_inserts_ge; [done|]. rewrite Hvl.
        destruct (decide (ob_off o + np.sel_start sel + np.sel_count sel ≤ j)%nat);
          [done|]. exfalso. apply Hn. split; [done|]. lia.
    + by rewrite list_lookup_insert_ne.
  - intros a oa Ha Hbase Hoff Hlen i Hi. unfold item. simpl. rewrite Ha. simpl.
    rewrite Hbase, list_lookup_insert_eq by (by eapply lookup_lt_Some).
    rewrite Hbuf. simpl.
    assert (window oa = window o) as -> by (unfold window; by rewrite Hoff, Hlen).
    apply window_inserts_frame. unfold in_selection in Hi. by rewrite Hvl.
Qed.

(** *** Objects and constructors are never modified once made *)

Lemma derive_extends h o src :
  (src < length (objs h))%nat →
  ∃ o' cs, np.derive array.finalize h o (Some src)
           = (Heap (bufs h) (objs h ++ [o']) (ctors h ++ cs), length (objs h)).
Proof.
  intros Hs. destruct (ob_class o) eqn:Hc.
  - rewrite derive_plain by done. exists o, []. by rewrite app_nil_r.
  - destruct (getattr_at h src) as [c|] eqn:Hg.
    + rewrite (derive_reuse _ _ _ c) by done. eexists _, []. by rewrite app_nil_r.
    + rewrite derive_first by done. eauto.
Qed.

Lemma step_extends h h' :
  step h h' → ∃ os cs, objs h' = objs h ++ os ∧ ctors h' = ctors h ++ cs.
Proof.
  assert (∀ h d h1 p, np.asarray h d = Ok (h1, p) →
            ∃ os, objs h1 = objs h ++ os ∧ ctors h1 = ctors h) as Has.
  { intros h0 [l|a] h1 p; simpl.
    - intros [= <- <-]. simpl. eauto.
    - intros H. inv_ok. destruct (ob_class x); simpl in H; inv_ok.
      + simplify_eq. exists []. by rewrite app_nil_r.
      + unfold alloc_obj in H. simplify_eq. simpl. eauto. }
  assert (∀ h w k v h', np.setitem h w k v = Ok h' →
            ∃ os cs, objs h' = objs h ++ os ∧ ctors h' = ctors h ++ cs) as Hset.
  { intros h0 w k v h1 H. apply setitem_Ok in H as (? & ? & ? & ? & _ & _ & _ & _ & ->).
    exists [], []. simpl. by rewrite !app_nil_r. }
  intros Hs. destruct Hs as
    [h d h' a H|h d h' a H|h src cls h' a H|h src lo hi h' a H|h src z h' a H
    |h a k v h' H|h a k v h' H|h a k v h' H].
  - destruct (new_shape _ _ _ _ H) as (h1 & p & o & Hd & _ & _ & _ & _ & ->).
    destruct (Has _ _ _ _ Hd) as (os & -> & ->). simpl.
    rewrite <- app_assoc. eauto.
  - destruct (Has _ _ _ _ H) as (os & -> & ->). exists os, []. by rewrite app_nil_r.
  - unfold np.view in H. inv_ok.
    edestruct derive_extends as (o' & cs & Hd); [by eapply lookup_lt_Some|].
    rewrite Hd in H. simplify_eq. simpl. eauto.
  - unfold np.getitem_slice in H. inv_ok.
    edestruct derive_extends as (o' & cs & Hd); [by eapply lookup_lt_Some|].
    rewrite Hd in H. simplify_eq. simpl. eauto.
  - unfold np.add_scalar in H. inv_ok. unfold alloc_buf in H. apply Ok_inj in H.
    edestruct derive_extends as (o' & cs & Hd); [|rewrite Hd in H].
    + simpl. by eapply lookup_lt_Some.
    + simplify_eq. simpl. eauto.
  - eauto.
  - apply at_set_Ok in H as (w & _ & H). eauto.
  - apply at_add_Ok in H as (w & x & y & _ & _ & _ & H). eauto.
Qed.

Lemma at_owner_step h h' a w : step h h' → at_owner h a w → at_owner h' a w.
Proof.
  intros Hs (c & Hg & Hc).
  destruct (step_extends _ _ Hs) as (os & cs & Ho & Hcs).
  exists c. split.
  - apply getattr_at_Some in Hg as (o & Hl & ? & ?). apply getattr_at_Some.
    exists o. rewrite Ho. split; [|done]. rewrite lookup_app_l; [done|].
    by eapply lookup_lt_Some.
  - rewrite Hcs. rewrite lookup_app_l; [done|]. by eapply lookup_lt_Some.
Qed.

Lemma at_owner_rtc h h' a w : rtc step h h' → at_owner h a w → at_owner h' a w.
Proof. induction 1; eauto using at_owner_step. Qed.

(** In a store that satisfies the invariant every Augmented Array has an
    [at] constructor, owned by a live array. *)
Lemma augmented_at h a :
  heap_ok h → augmented h a → ∃ w, at_owner h a w ∧ is_Some (objs h !! w).
Proof.
  intros Hok (o & Ho & Hc).
  pose proof (ok_at h Hok a o Ho) as Ha. rewrite Hc in Ha.
  destruct Ha as (c & Hat & Hlt).
  destruct (lookup_lt_is_Some_2 _ _ Hlt) as [[w] Hw].
  exists w. split.
  - exists c. split; [|done]. apply getattr_at_Some. eauto.
  - apply lookup_lt_is_Some_2. by apply (ok_owner h Hok c (AtCtor w)).
Qed.

Lemma new_self_owned_aux h d h' a :
  array.__new__ h d = Ok (h', a) → augmented h' a ∧ self_owned h' a.
Proof.
  intros H. destruct (new_shape _ _ _ _ H) as (h1 & p & o & _ & _ & _ & _ & -> & ->).
  split.
  - eexists. simpl. split; [by apply list_lookup_middle|done].
  - exists (S (length (ctors h1))). split.
    + apply getattr_at_Some. eexists. simpl. split; [by apply list_lookup_middle|done].
    + simpl. rewrite lookup_app_r by lia.
      by replace (S (length (ctors h1)) - length (ctors h1))%nat with 1%nat by lia.
Qed.

(** *** The example stores *)

Lemma heap_A_new : array.__new__ empty_heap (FromSeq [1; 2; 3; 4]) = Ok (heap_A, 1%nat).
Proof. reflexivity. Qed.

Lemma heap_AB_slice :
  np.getitem_slice array.finalize heap_A 1 (Some 1) None = Ok (heap_AB, 2%nat).
Proof. reflexivity. Qed.

Lemma heap_P_asarray : np.asarray empty_heap (FromSeq [1; 2; 3]) = Ok (heap_P, 0%nat).
Proof. reflexivity. Qed.

Lemma reachable_heap_A : reachable heap_A.
Proof. eapply rtc_l; [eapply step_new, heap_A_new|apply rtc_refl]. Qed.

Lemma reachable_heap_AB : reachable heap_AB.
Proof.
  eapply rtc_r; [apply reachable_heap_A|]. eapply step_slice, heap_AB_slice.
Qed.

Lemma reachable_heap_P : reachable heap_P.
Proof. eapply rtc_l; [eapply step_asarray, heap_P_asarray|apply rtc_refl]. Qed.

Lemma int_reachable_reachable h : int_reachable h → reachable h.
Proof.
  unfold int_reachable, reachable. apply rtc_subrel. by intros ?? [? _].
Qed.

Ltac in_range_concrete :=
  repeat first
    [ solve [constructor]
    | constructor; [unfold np.in_range; simpl; lia|] ].

Ltac int_data_concrete :=
  unfold int_data; simpl;
  repeat first
    [ solve [constructor]
    | constructor;
      [intros buf Hbuf; simpl in Hbuf; injection Hbuf as <-;
       unfold window; simpl; in_range_concrete|] ].



Lemma int_reachable_heap_P : int_reachable heap_P.
Proof.
  eapply rtc_l; [|apply rtc_refl]. split; [eapply step_asarray, heap_P_asarray|].
  int_data_concrete.
Qed.

Lemma at_owner_functional h a w1 w2 : at_owner h a w1 → at_owner h a w2 → w1 = w2.
Proof. intros (c1 & Hg1 & Hc1) (c2 & Hg2 & Hc2). congruence. Qed.

Lemma selection_of_Ok h w k sel :
  selection_of h w k = Ok sel ↔
  ∃ o, objs h !! w = Some o ∧ np.resolve (ob_len o) k = Ok sel.
Proof.
  unfold selection_of, get_obj. split.
  - intros H. inv_ok. eauto.
  - intros (o & -> & Hr). done.
Qed.

(** An array that is the owner, or views the owner's window, has the
    owner's geometry. *)
Lemma owner_geometry h a w o :
  objs h !! w = Some o →
  a = w ∨ same_window h a w →
  ∃ oa, objs h !! a = Some oa ∧
        ob_base oa = ob_base o ∧ ob_off oa = ob_off o ∧ ob_len oa = ob_len o.
Proof.
  intros Ho [->|(oa & ob & Ha & Hb & ? & ? & ?)]; [eauto|].
  exists oa. assert (ob = o) as -> by congruence. done.
Qed.


Lemma asarray_seq h l :
  ∃ h1 p o, np.asarray h (FromSeq l) = Ok (h1, p) ∧ objs h1 !! p = Some o ∧
            ob_len o = length l ∧ elems h1 p = Ok l.
Proof.
  eexists _, _, _. split; [reflexivity|]. simpl.
  split; [by apply list_lookup_middle|]. split; [done|].
  unfold elems, get_obj. simpl. rewrite list_lookup_middle by done. simpl.
  rewrite list_lookup_middle by done. simpl. unfold window. simpl.
  by rewrite take_ge by done.
Qed.

(** *** The model on the scenarios of the module's documentation *)

Example scenario_set_then_add :
  ∃ h1 h2,
    at_set heap_A 1 (KInt 1) (VScalar 10) = Ok (h1, tt) ∧
    elems h1 1 = Ok [1; 10; 3; 4] ∧
    at_add h1 1 (KInt 2) (VScalar 5) = Ok (h2, tt) ∧
    elems h2 1 = Ok [1; 10; 8; 4].
Proof. eexists _, _. repeat split. Qed.

Example scenario_slice_add :
  ∃ h1,
    at_add heap_A 1 (KSlice None (Some (-2))) (VSeq [100; 200]) = Ok (h1, tt) ∧
    elems h1 1 = Ok [101; 202; 3; 4].
Proof. eexists. repeat split. Qed.

(** An Augmented Array allocated with no source
    ([np.ndarray.__new__(array, (2,))]) leaves the hook through its
    [obj is None] guard and has no [at] attribute at all; [step] has no
    such call. *)
Example explicit_allocation_has_no_at :
  ∃ h r, np.ndarray_new array.finalize empty_heap cls_array 2 int64 = (h, r) ∧
         augmented h r ∧ getattr_at h r = None ∧
         get_at h r = Raise (AttributeError "array" "at").
Proof. eexists _, _. split; [reflexivity|]. split; [|done]. eexists. split; reflexivity. Qed.

(** ** The [at] attribute of Augmented Arrays *)

(** C1, as stated, fails: the slice [B = A[1:]] of a freshly built [A] is an
    Augmented Array whose [at] is the constructor of [A], so the owner of
    [B.at] is [A] and not [B]. *)
Lemma slice_at_not_self_owned :
  ¬ (∀ h a, reachable h → augmented h a → self_owned h a).
Proof.
  intros H.
  destruct (H heap_AB 2%nat reachable_heap_AB) as (c & Hg & Hc).
  - eexists. split; reflexivity.
  - vm_compute in Hg. injection Hg as <-. vm_compute in Hc. discriminate Hc.
Qed.

(** C1, amended: every Augmented Array instance produced by the module-level
    array constructor, a view, a slice or an arithmetic result has a
    non-null [at] attribute, a constructor whose owner is an existing array;
    the owner is the instance itself when the instance was made by the
    module-level array constructor, and stays so in every later store. *)
Theorem at_attribute_invariant h a :
  reachable h → augmented h a →
  (∃ c w, getattr_at h a = Some c ∧ ctors h !! c = Some (AtCtor w) ∧
          is_Some (objs h !! w)) ∧
  (∀ h0 d h1, array.__new__ h0 d = Ok (h1, a) → rtc step h1 h → self_owned h a).
Proof.
  intros Hr Ha. split.
  - destruct (augmented_at h a (reachable_ok h Hr) Ha) as (w & (c & ? & ?) & ?).
    eauto.
  - intros h0 d h1 Hn Hs. eapply at_owner_rtc; [done|].
    by eapply new_self_owned_aux.
Qed.

Lemma at_attribute_invariant_witness :
  reachable heap_AB ∧ augmented heap_AB 2 ∧
  (∃ c w, getattr_at heap_AB 2 = Some c ∧ ctors heap_AB !! c = Some (AtCtor w) ∧
          is_Some (objs heap_AB !! w)) ∧
  (∀ h0 d h1, array.__new__ h0 d = Ok (h1, 2%nat) → rtc step h1 heap_AB →
              self_owned heap_AB 2).
Proof.
  assert (augmented heap_AB 2) as Ha by (eexists; split; reflexivity).
  split; [apply reachable_heap_AB|]. split; [exact Ha|].
  exact (at_attribute_invariant heap_AB 2 reachable_heap_AB Ha).
Defined.

(** C2, on the code: finalizing the view [V] of the baseline array [P],
    which has no [at], attaches a new constructor whose owner is the source
    [P]; the new instance [V] is not the owner. *)
Theorem finalize_plain_source_owner :
  getattr_at heap_P 0 = None ∧
  np.view array.finalize heap_P 0 cls_array = Ok (heap_PV, 1%nat) ∧
  at_owner heap_PV 1 0 ∧
  ¬ self_owned heap_PV 1.
Proof.
  split; [reflexivity|]. split; [reflexivity|]. split.
  - exists 0%nat. split; reflexivity.
  - intros (c & Hg & Hc). vm_compute in Hg. injection Hg as <-.
    vm_compute in Hc. discriminate Hc.
Qed.

(** The same for any source without [at]: the hook builds
    [_AtConstructor(obj)] with the source as owner. *)
Lemma finalize_first_owner h o src :
  ob_class o = cls_array →
  (src < length (objs h))%nat →
  getattr_at h src = None →
  ∃ h' r, np.derive array.finalize h o (Some src) = (h', r) ∧
          ctors h' = ctors h ++ [AtCtor src] ∧ at_owner h' r src ∧ src ≠ r.
Proof.
  intros Hc Hs Hg. rewrite derive_first by done. eexists _, _.
  split; [done|]. simpl. split; [done|]. split; [|lia].
  exists (length (ctors h)). split.
  - apply getattr_at_Some. eexists. simpl. split; [by apply list_lookup_middle|].
    done.
  - simpl. by apply list_lookup_middle.
Qed.

(** C3, as stated, fails on its last clause: with [B = A[1:]] and then
    [C = B[1:]], the hook finalizes [C] from the source [B], which has an
    [at]; the constructor is reused, but its owner is [A], not the source
    [B]. *)
Lemma reused_owner_not_source :
  ¬ (∀ h o src c h' r,
       reachable h → ob_class o = cls_array → getattr_at h src = Some c →
       np.derive array.finalize h o (Some src) = (h', r) →
       getattr_at h' r = Some c ∧ ctors h' = ctors h ∧ at_owner h' r src).
Proof.
  intros H.
  edestruct (H heap_AB (NdObj cls_array 0 2 2 int64 None) 2%nat 1%nat)
    as (_ & _ & (c & Hg & Hc)).
  - apply reachable_heap_AB.
  - reflexivity.
  - reflexivity.
  - reflexivity.
  - vm_compute in Hg. injection Hg as <-. vm_compute in Hc. discriminate Hc.
Qed.

(** C3, amended: in the derivation hook, whenever a new Augmented Array
    instance is finalized from a source object that already has an [at]
    attribute, that existing constructor object is reused as-is (the new
    instance's [at] is the very same constructor object, no fresh one is
    built), so the derived array's [at.owner] is the owner that constructor
    already had (the source array itself when the source's [at] is
    self-owned) and never the derived array. *)
Theorem finalize_reuses_constructor h o src c :
  reachable h → ob_class o = cls_array → getattr_at h src = Some c →
  (∀ self, array.__array_finalize__ h self (Some src) = setattr_at h self c) ∧
  ∃ w h' r,
    ctors h !! c = Some (AtCtor w) ∧
    np.derive array.finalize h o (Some src) = (h', r) ∧
    getattr_at h' r = Some c ∧ ctors h' = ctors h ∧
    at_owner h' r w ∧ w ≠ r ∧ (self_owned h src → w = src).
Proof.
  intros Hr Hc Hg. pose proof (reachable_ok h Hr) as Hok. split.
  { intros self. unfold array.__array_finalize__. by rewrite Hg. }
  pose proof Hg as Hg'.
  apply getattr_at_Some in Hg' as (os & Hos & Hcs & Hat).
  pose proof (ok_at h Hok src os Hos) as Ha. rewrite Hcs in Ha.
  destruct Ha as (c' & Hat' & Hlt). assert (c' = c) as -> by congruence.
  destruct (lookup_lt_is_Some_2 _ _ Hlt) as [[w] Hw].
  pose proof (ok_owner h Hok _ _ Hw) as Hwl. simpl in Hwl.
  exists w. eexists _, _. split; [done|].
  split; [apply derive_reuse; [done|by eapply lookup_lt_Some|done]|].
  simpl.
  assert (getattr_at (Heap (bufs h) (objs h ++ [with_at c o]) (ctors h))
                     (length (objs h)) = Some c) as Hnew.
  { apply getattr_at_Some. eexists. simpl. split; [by apply list_lookup_middle|].
    done. }
  split; [done|]. split; [done|]. split; [by exists c|]. split; [lia|].
  intros (c2 & Hg2 & Hc2). congruence.
Qed.

Lemma finalize_reuses_constructor_witness :
  reachable heap_AB ∧
  ob_class (NdObj cls_array 0 2 2 int64 None) = cls_array ∧
  getattr_at heap_AB 2 = Some 1%nat ∧
  (∀ self, array.__array_finalize__ heap_AB self (Some 2%nat)
           = setattr_at heap_AB self 1) ∧
  ∃ w h' r,
    ctors heap_AB !! 1%nat = Some (AtCtor w) ∧
    np.derive array.finalize heap_AB (NdObj cls_array 0 2 2 int64 None) (Some 2%nat)
    = (h', r) ∧
    getattr_at h' r = Some 1%nat ∧ ctors h' = ctors heap_AB ∧
    at_owner h' r w ∧ w ≠ r ∧ (self_owned heap_AB 2 → w = 2%nat).
Proof.
  split; [apply reachable_heap_AB|]. split; [reflexivity|]. split; [reflexivity|].
  exact (finalize_reuses_constructor heap_AB (NdObj cls_array 0 2 2 int64 None) 2 1
           reachable_heap_AB eq_refl eq_refl).
Defined.

(** C10: for every input, the view step of the module-level constructor
    runs the hook, which attaches a constructor owned by the intermediate
    baseline array; the constructor body then overwrites [at] with a new
    constructor owned by the new Augmented Array, which is therefore
    self-owned whatever the hook did. *)
Theorem new_overwrites_hook_constructor h d :
  input_ok h d →
  ∃ h1 p h2 a h',
    np.asarray h d = Ok (h1, p) ∧
    np.view array.finalize h1 p cls_array = Ok (h2, a) ∧
    at_owner h2 a p ∧ p ≠ a ∧
    array.__new__ h d = Ok (h', a) ∧
    augmented h' a ∧ self_owned h' a ∧ ¬ at_owner h' a p.
Proof.
  intros Hin. destruct (new_total h d Hin) as (h' & a & Hn).
  destruct (new_shape _ _ _ _ Hn) as (h1 & p & o & Has & Hp & Hc & Hv & Ha & Hh').
  pose proof (lookup_lt_Some _ _ _ Hp) as Hpl.
  destruct (new_self_owned_aux _ _ _ _ Hn) as [Haug Hself].
  exists h1, p. eexists _, a, h'. split; [done|]. split; [exact Hv|].
  split; [|split; [lia|split; [done|split; [done|split; [done|]]]]].
  - exists (length (ctors h1)). split.
    + apply getattr_at_Some. eexists. simpl. subst a.
      split; [by apply list_lookup_middle|done].
    + simpl. by apply list_lookup_middle.
  - intros (c & Hg & Hcp). destruct Hself as (c' & Hg' & Hc').
    rewrite Hg in Hg'. simplify_eq. lia.
Qed.

Lemma new_overwrites_hook_constructor_witness :
  input_ok empty_heap (FromSeq [1; 2; 3; 4]) ∧
  ∃ h1 p h2 a h',
    np.asarray empty_heap (FromSeq [1; 2; 3; 4]) = Ok (h1, p) ∧
    np.view array.finalize h1 p cls_array = Ok (h2, a) ∧
    at_owner h2 a p ∧ p ≠ a ∧
    array.__new__ empty_heap (FromSeq [1; 2; 3; 4]) = Ok (h', a) ∧
    augmented h' a ∧ self_owned h' a ∧ ¬ at_owner h' a p.
Proof.
  split; [exact I|].
  exact (new_overwrites_hook_constructor empty_heap (FromSeq [1; 2; 3; 4]) I).
Defined.

(** ** [set] and [add] *)







(** C6, as stated, fails: for the slice [B = A[1:]] of [A = array([1,2,3,4])],
    [B.at[1].set(10)] writes [A[1]], which is [B[0]]: a position of [B]
    outside the key has changed, from 2 to 10. *)
Lemma at_update_touches_other_position :
  ¬ (∀ h a k v sel h',
       reachable h → augmented h a → selection_of h a k = Ok sel →
       at_set h a k v = Ok (h', tt) ∨ at_add h a k v = Ok (h', tt) →
       ∀ i, ¬ in_selection sel i → item h' a i = item h a i).
Proof.
  intros H.
  assert (item (Heap [[1; 10; 3; 4]] (objs heap_AB) (ctors heap_AB)) 2 0
          = item heap_AB 2 0) as Hi.
  { eapply (H heap_AB 2%nat (KInt 1) (VScalar 10)).
    - apply reachable_heap_AB.
    - eexists. split; reflexivity.
    - reflexivity.
    - left. reflexivity.
    - unfold in_selection. simpl. lia. }
  vm_compute in Hi. discriminate Hi.
Qed.

(** C6, amended: for every Augmented Array A, with [w] the owner of [A.at],
    every valid key [k] and every broadcastable value [v], the operations
    [A.at[k].set(v)] and [A.at[k].add(v)] leave every position of [w]
    outside the sub-selection addressed by [k] unchanged (so every such
    position of [A] when [A.at] is self-owned), and have no effect other
    than the in-place mutation of [w] at [k]: no object and no constructor
    changes, and no buffer cell outside the cells [k] selects in [w]. *)
Theorem at_update_frame h a k v h' :
  at_set h a k v = Ok (h', tt) ∨ at_add h a k v = Ok (h', tt) →
  ∃ w o sel,
    at_owner h a w ∧ objs h !! w = Some o ∧ np.resolve (ob_len o) k = Ok sel ∧
    (self_owned h a → w = a) ∧
    objs h' = objs h ∧ ctors h' = ctors h ∧
    length (bufs h') = length (bufs h) ∧
    (∀ b j, ¬ (b = ob_base o ∧
               (ob_off o + np.sel_start sel ≤ j
                < ob_off o + np.sel_start sel + np.sel_count sel)%nat) →
            cell h' b j = cell h b j) ∧
    (∀ a', a' = w ∨ same_window h a' w →
       ∀ i, ¬ in_selection sel i → item h' a' i = item h a' i).
Proof.
  intros H.
  assert (∃ w y, at_owner h a w ∧ np.setitem h w k y = Ok h') as (w & y & Hw & Hset).
  { destruct H as [H|H].
    - apply at_set_Ok in H as (w & ? & ?). eauto.
    - apply at_add_Ok in H as (w & x & y & ? & _ & _ & ?). eauto. }
  destruct (setitem_frame _ _ _ _ _ Hset)
    as (o & sel & Ho & Hres & Hobjs & Hctors & Hlen & Hcell & Hitem).
  exists w, o, sel. split; [done|]. split; [done|]. split; [done|].
  split; [intros Hself; by apply (at_owner_functional h a)|].
  split; [done|]. split; [done|]. split; [done|]. split; [done|].
  intros a' Hg i Hi.
  destruct (owner_geometry h a' w o Ho Hg) as (oa & Hoa & ? & ? & ?).
  by apply (Hitem a' oa).
Qed.

Lemma at_update_frame_witness :
  (at_set heap_A 1 (KInt 1) (VScalar 10)
   = Ok (Heap [[1; 10; 3; 4]] (objs heap_A) (ctors heap_A), tt) ∨
   at_add heap_A 1 (KInt 1) (VScalar 10)
   = Ok (Heap [[1; 10; 3; 4]] (objs heap_A) (ctors heap_A), tt)) ∧
  ∃ w o sel,
    at_owner heap_A 1 w ∧ objs heap_A !! w = Some o ∧
    np.resolve (ob_len o) (KInt 1) = Ok sel ∧
    (self_owned heap_A 1 → w = 1%nat) ∧
    objs (Heap [[1; 10; 3; 4]] (objs heap_A) (ctors heap_A)) = objs heap_A ∧
    ctors (Heap [[1; 10; 3; 4]] (objs heap_A) (ctors heap_A)) = ctors heap_A ∧
    length (bufs (Heap [[1; 10; 3; 4]] (objs heap_A) (ctors heap_A)))
    = length (bufs heap_A) ∧
    (∀ b j, ¬ (b = ob_base o ∧
               (ob_off o + np.sel_start sel ≤ j
                < ob_off o + np.sel_start sel + np.sel_count sel)%nat) →
            cell (Heap [[1; 10; 3; 4]] (objs heap_A) (ctors heap_A)) b j
            = cell heap_A b j) ∧
    (∀ a', a' = w ∨ same_window heap_A a' w →
       ∀ i, ¬ in_selection sel i →
            item (Heap [[1; 10; 3; 4]] (objs heap_A) (ctors heap_A)) a' i
            = item heap_A a' i).
Proof.
  split; [left; reflexivity|].
  exact (at_update_frame heap_A 1 (KInt 1) (VScalar 10) _ (or_introl eq_refl)).
Defined.

(** ** Construction *)

(** C7: for every array-like input the baseline library accepts, the
    module-level array constructor returns an Augmented Array whose
    elements, shape and dtype are those of the baseline array
    [np.asarray] builds from the input: it views the same window of the
    same buffer, and the call copies no data. *)
Theorem array_new_same_data h d :
  input_ok h d →
  ∃ h1 p op h' a oa,
    np.asarray h d = Ok (h1, p) ∧ objs h1 !! p = Some op ∧
    array.__new__ h d = Ok (h', a) ∧ objs h' !! a = Some oa ∧
    ob_class oa = cls_array ∧
    ob_base oa = ob_base op ∧ ob_off oa = ob_off op ∧
    ob_len oa = ob_len op ∧ ob_dtype oa = ob_dtype op ∧
    bufs h' = bufs h1 ∧
    elems h' a = elems h1 p ∧
    (∀ l, d = FromSeq l → elems h' a = Ok l ∧ ob_len oa = length l).
Proof.
  intros Hin. destruct (new_total h d Hin) as (h' & a & Hn).
  destruct (new_shape _ _ _ _ Hn) as (h1 & p & o & Has & Hp & Hc & _ & Ha & Hh').
  exists h1, p, o, h', a. eexists.
  split; [done|]. split; [done|]. split; [done|].
  assert (objs h' !! a = Some (NdObj cls_array (ob_base o) (ob_off o) (ob_len o)
                                     (ob_dtype o) (Some (S (length (ctors h1))))))
    as Hoa.
  { subst h' a. simpl. by apply list_lookup_middle. }
  split; [exact Hoa|]. simpl.
  assert (bufs h' = bufs h1) as Hb by by subst h'.
  assert (elems h' a = elems h1 p) as He.
  { unfold elems, get_obj. by rewrite Hoa, Hp, Hb. }
  repeat (split; [done|]).
  intros l ->. rewrite He.
  destruct (asarray_seq h l) as (h1' & p' & o' & Has' & Hp' & Hlen & Hel).
  rewrite Has in Has'. injection Has' as <- <-.
  rewrite Hp in Hp'. injection Hp' as <-. done.
Qed.

Lemma array_new_same_data_witness :
  input_ok heap_P (FromArr 0) ∧
  ∃ h1 p op h' a oa,
    np.asarray heap_P (FromArr 0) = Ok (h1, p) ∧ objs h1 !! p = Some op ∧
    array.__new__ heap_P (FromArr 0) = Ok (h', a) ∧ objs h' !! a = Some oa ∧
    ob_class oa = cls_array ∧
    ob_base oa = ob_base op ∧ ob_off oa = ob_off op ∧
    ob_len oa = ob_len op ∧ ob_dtype oa = ob_dtype op ∧
    bufs h' = bufs h1 ∧
    elems h' a = elems h1 p ∧
    (∀ l, FromArr 0 = FromSeq l → elems h' a = Ok l ∧ ob_len oa = length l).
Proof.
  assert (input_ok heap_P (FromArr 0)) as Hin by (eexists; reflexivity).
  split; [exact Hin|].
  exact (array_new_same_data heap_P (FromArr 0) Hin).
Defined.

(** ** Subscription *)

Lemma heap_E_new :
  np.ndarray_new array.finalize empty_heap cls_array 2 int64 = (heap_E, 0%nat).
Proof. reflexivity. Qed.

(** C8, as stated, fails: an Augmented Array [E] allocated with no source
    ([np.ndarray.__new__(array, (2,))], store [heap_E]) leaves the hook
    through its [obj is None] guard without an [at] attribute, so [E.at[k]]
    raises [AttributeError] for every key. *)
Lemma at_missing_subscript_raises :
  ¬ (∀ h a k, augmented h a → ∃ op, at_subscript h a k = Ok op).
Proof.
  intros H. destruct (H heap_E 0%nat (KInt 0)) as (op & Hop).
  - eexists. split; reflexivity.
  - vm_compute in Hop. discriminate Hop.
Qed.

(** C8, amended: for every Augmented Array A that carries an [at]
    attribute, with [w] the owner of [A.at] (every array made by the
    module-level constructor, a view, a slice or an arithmetic result
    carries one), and every key [k] of any type whatsoever, the
    subscription [A.at[k]] does not raise and does not look at [k]: it
    returns the operation holding exactly [(w, k)].  [set] and [add] are
    the baseline library's indexed assignment and increment on [w], errors
    included, so an invalid key, a value that does not broadcast and a
    value that cannot be cast raise the baseline library's own error, and
    only when [set] or [add] is applied.  An Augmented Array without [at]
    (one allocated with no source) raises [AttributeError] at [A.at]. *)
Theorem at_subscript_no_validation h a k :
  (∀ c w, getattr_at h a = Some c → ctors h !! c = Some (AtCtor w) →
     at_subscript h a k = Ok (AtOp w k) ∧
     (∀ v, at_set h a k v = (h' ← np.setitem h w k v; mret (h', tt))) ∧
     (∀ v, at_add h a k v
           = (x ← np.getitem h w k; y ← np.iadd x v;
              h' ← np.setitem h w k y; mret (h', tt))) ∧
     (∀ e, selection_of h w k = Raise e →
           ∀ v, at_set h a k v = Raise e ∧ at_add h a k v = Raise e) ∧
     (∀ o sel v e, objs h !! w = Some o → np.resolve (ob_len o) k = Ok sel →
                   np.store_values (ob_dtype o) sel v = Raise e →
                   at_set h a k v = Raise e)) ∧
  (getattr_at h a = None →
   at_subscript h a k = Raise (AttributeError "array" "at")) ∧
  (reachable h → augmented h a → ∃ w, at_owner h a w).
Proof.
  split; [|split].
  - intros c w Hg Hc.
    assert (at_subscript h a k = Ok (AtOp w k)) as Hsub
      by (apply at_subscript_Ok; eauto).
    assert (∀ v, at_set h a k v = (h' ← np.setitem h w k v; mret (h', tt))) as Hset.
    { intros v. unfold at_set. by rewrite Hsub. }
    assert (∀ v, at_add h a k v
                 = (x ← np.getitem h w k; y ← np.iadd x v;
                    h' ← np.setitem h w k y; mret (h', tt))) as Hadd.
    { intros v. unfold at_add. by rewrite Hsub. }
    split; [done|]. split; [done|]. split; [done|]. split.
    + intros e Hsel v. rewrite Hset, Hadd.
      unfold selection_of in Hsel. unfold np.setitem, np.getitem.
      destruct (get_obj h w) as [o|e']; simpl in *; [|by injection Hsel as ->].
      by rewrite Hsel.
    + intros o sel v e Ho Hres Hb. rewrite Hset.
      unfold np.setitem, get_obj. rewrite Ho. simpl. rewrite Hres. simpl.
      by rewrite Hb.
  - intros Hg. unfold at_subscript, get_at. by rewrite Hg.
  - intros Hr Ha. destruct (augmented_at h a (reachable_ok h Hr) Ha) as (w & ? & _).
    eauto.
Qed.

Lemma at_subscript_no_validation_witness :
  getattr_at heap_AB 2 = Some 1%nat ∧ ctors heap_AB !! 1%nat = Some (AtCtor 1) ∧
  at_subscript heap_AB 2 (KOther "x") = Ok (AtOp 1 (KOther "x")) ∧
  (∀ v, at_set heap_AB 2 (KOther "x") v
        = (h' ← np.setitem heap_AB 1 (KOther "x") v; mret (h', tt))) ∧
  (∀ v, at_add heap_AB 2 (KOther "x") v
        = (x ← np.getitem heap_AB 1 (KOther "x"); y ← np.iadd x v;
           h' ← np.setitem heap_AB 1 (KOther "x") y; mret (h', tt))) ∧
  (∀ e, selection_of heap_AB 1 (KOther "x") = Raise e →
        ∀ v, at_set heap_AB 2 (KOther "x") v = Raise e ∧
             at_add heap_AB 2 (KOther "x") v = Raise e) ∧
  (∀ o sel v e, objs heap_AB !! 1%nat = Some o →
                np.resolve (ob_len o) (KOther "x") = Ok sel →
                np.store_values (ob_dtype o) sel v = Raise e →
                at_set heap_AB 2 (KOther "x") v = Raise e).
Proof.
  split; [reflexivity|]. split; [reflexivity|].
  exact (proj1 (at_subscript_no_validation heap_AB 2 (KOther "x")) 1%nat 1%nat
           eq_refl eq_refl).
Defined.

(** An out-of-bounds key and a key that is no index pass the subscription
    and fail in [set] with the baseline library's [IndexError]. *)
Example at_subscript_invalid_keys :
  at_subscript heap_A 1 (KInt 7) = Ok (AtOp 1 (KInt 7)) ∧
  at_set heap_A 1 (KInt 7) (VScalar 0) = Raise IndexError ∧
  at_subscript heap_A 1 (KOther "x") = Ok (AtOp 1 (KOther "x")) ∧
  at_add heap_A 1 (KOther "x") (VScalar 0) = Raise IndexError ∧
  at_set heap_A 1 (KSlice (Some 1) (Some 3)) (VSeq [1; 2; 3]) = Raise ValueError.
Proof. repeat split. Qed.

(** ** The forwarder *)

(** C9: for every name that is not defined in this module, attribute
    access on the module gives what the baseline library gives for that
    name: the identical object when the baseline library has the name, and
    the baseline library's own attribute error when it has not. *)
Theorem module_getattr_forwards (np_dict module_dict : gmap string nat) attr :
  module_dict !! attr = None →
  module_getattr np_dict module_dict attr = np_getattr np_dict attr ∧
  (∀ v, np_dict !! attr = Some v →
        module_getattr np_dict module_dict attr = Ok v) ∧
  (np_dict !! attr = None →
   module_getattr np_dict module_dict attr = Raise (AttributeError "numpy" attr)).
Proof.
  intros Hl. unfold module_getattr, __getattr__, np_getattr. rewrite Hl.
  split; [done|]. split.
  - by intros v ->.
  - by intros ->.
Qed.

Lemma module_getattr_forwards_witness :
  ({["array" := 1%nat]} : gmap string nat) !! "sin" = None ∧
  module_getattr {["sin" := 7%nat]} {["array" := 1%nat]} "sin"
  = np_getattr {["sin" := 7%nat]} "sin" ∧
  (∀ v, ({["sin" := 7%nat]} : gmap string nat) !! "sin" = Some v →
        module_getattr {["sin" := 7%nat]} {["array" := 1%nat]} "sin" = Ok v) ∧
  (({["sin" := 7%nat]} : gmap string nat) !! "sin" = None →
   module_getattr {["sin" := 7%nat]} {["array" := 1%nat]} "sin"
   = Raise (AttributeError "numpy" "sin")).
Proof.
  split; [reflexivity|].
  exact (module_getattr_forwards {["sin" := 7%nat]} {["array" := 1%nat]} "sin" eq_refl).
Defined.

(** ** Further properties of the module *)

(** *** Arrays allocated without a source *)

(** X1: an Augmented Array allocated with no source
    ([np.ndarray.__new__(array, ...)]) leaves the hook through its
    [obj is None] guard: no constructor is built, the array has no [at]
    attribute, and every [A.at[k]], [A.at[k].set(v)] and [A.at[k].add(v)]
    on it raises [AttributeError]. *)
Theorem explicit_allocation_no_at h n dt :
  ∃ h' r,
    np.ndarray_new array.finalize h cls_array n dt = (h', r) ∧
    r = length (objs h) ∧ augmented h' r ∧
    ctors h' = ctors h ∧ getattr_at h' r = None ∧
    ∀ k, at_subscript h' r k = Raise (AttributeError "array" "at") ∧
         ∀ v, at_set h' r k v = Raise (AttributeError "array" "at") ∧
              at_add h' r k v = Raise (AttributeError "array" "at").
Proof.
  unfold np.ndarray_new, alloc_buf. rewrite derive_none. eexists _, _.
  split; [done|]. simpl. split; [done|].
  assert (getattr_at (Heap (bufs h ++ [replicate n 0])
                           (objs h ++ [NdObj cls_array (length (bufs h)) 0 n dt None])
                           (ctors h)) (length (objs h)) = None) as Hg.
  { unfold getattr_at. simpl. by rewrite list_lookup_middle. }
  split; [eexists; split; [by apply list_lookup_middle|done]|].
  split; [done|]. split; [done|]. intros k.
  assert (at_subscript (Heap (bufs h ++ [replicate n 0])
                           (objs h ++ [NdObj cls_array (length (bufs h)) 0 n dt None])
                           (ctors h)) (length (objs h)) k
          = Raise (AttributeError "array" "at")) as Hs.
  { unfold at_subscript, get_at. by rewrite Hg. }
  split; [done|]. intros v. unfold at_set, at_add. by rewrite Hs.
Qed.

(** *** What the hook touches *)

(** X2: the derivation hook only attaches an attribute: it changes no
    data, no array object other than the one being finalized, nothing of
    that one but its [at], and no existing constructor; it adds at most one
    constructor, and whenever there is a source the finalized array ends
    with an [at]. *)
Theorem finalize_frame h self obj :
  bufs (array.__array_finalize__ h self obj) = bufs h ∧
  (∀ a, a ≠ self →
        objs (array.__array_finalize__ h self obj) !! a = objs h !! a) ∧
  (∀ o, objs h !! self = Some o →
        ∃ o', objs (array.__array_finalize__ h self obj) !! self = Some o' ∧
              ob_class o' = ob_class o ∧ ob_base o' = ob_base o ∧
              ob_off o' = ob_off o ∧ ob_len o' = ob_len o ∧
              ob_dtype o' = ob_dtype o ∧
              (obj = None → o' = o) ∧ (is_Some obj → is_Some (at_ o'))) ∧
  (∃ cs, ctors (array.__array_finalize__ h self obj) = ctors h ++ cs ∧
         (length cs ≤ 1)%nat ∧
         ∀ k, k ∈ cs → obj = Some (ctor_owner k)).
Proof.
  destruct obj as [src|]; simpl.
  - destruct (getattr_at h src) as [c|]; simpl.
    + split; [done|]. split; [intros a Ha; by rewrite list_lookup_alter_ne|].
      split.
      * intros o Ho. eexists. rewrite list_lookup_alter_eq, Ho. simpl.
        repeat (split; [done|]). intros _. eauto.
      * exists []. rewrite app_nil_r. split; [done|]. split; [simpl; lia|].
        intros k Hk. by apply elem_of_nil in Hk.
    + split; [done|]. split; [intros a Ha; by rewrite list_lookup_alter_ne|].
      split.
      * intros o Ho. eexists. rewrite list_lookup_alter_eq, Ho. simpl.
        repeat (split; [done|]). intros _. eauto.
      * exists [AtCtor src]. split; [done|]. split; [simpl; lia|].
        intros k Hk. apply list_elem_of_singleton in Hk. by subst k.
  - split; [done|]. split; [done|]. split.
    + intros o Ho. exists o. repeat (split; [done|]). by intros [? ?].
    + exists []. rewrite app_nil_r. split; [done|]. split; [simpl; lia|].
      intros k Hk. by apply elem_of_nil in Hk.
Qed.

(** *** Who can own a constructor *)

Lemma derive_new_ctors h o src h' r c w :
  heap_ok h →
  (src < length (objs h))%nat →
  np.derive array.finalize h o (Some src) = (h', r) →
  ctors h' !! c = Some (AtCtor w) →
  ctors h !! c = Some (AtCtor w) ∨
  ∃ ow, objs h' !! w = Some ow ∧ ob_class ow = cls_ndarray.
Proof.
  intros Hok Hs Hd Hc. destruct (ob_class o) eqn:Hcl.
  - rewrite derive_plain in Hd by done. simplify_eq. by left.
  - destruct (getattr_at h src) as [c0|] eqn:Hg.
    + rewrite (derive_reuse _ _ _ c0) in Hd by done. simplify_eq. by left.
    + rewrite derive_first in Hd by done. simplify_eq. simpl in *.
      apply lookup_app_Some in Hc as [Hc|[_ Hc]]; [by left|]. right.
      apply list_lookup_singleton_Some in Hc as [_ Hc]. injection Hc as <-.
      destruct (lookup_lt_is_Some_2 _ _ Hs) as [os Hos].
      exists os. split; [by rewrite lookup_app_l|].
      pose proof (ok_at h Hok src os Hos) as Ha.
      destruct (ob_class os) eqn:Hcs; [done|].
      destruct Ha as (c1 & Hat & _).
      assert (getattr_at h src = Some c1) as Hg' by (apply getattr_at_Some; eauto).
      congruence.
Qed.

Lemma step_new_ctors h h' c w :
  step h h' → heap_ok h →
  ctors h' !! c = Some (AtCtor w) →
  ctors h !! c = Some (AtCtor w) ∨
  (∃ ow, objs h' !! w = Some ow ∧ ob_class ow = cls_ndarray) ∨
  self_owned h' w.
Proof.
  intros Hs Hok Hc.
  assert (∀ h w k v h', np.setitem h w k v = Ok h' → ctors h' = ctors h) as Hset.
  { intros h0 w0 k v h1 H. by apply setitem_Ok in H as (? & ? & ? & ? & _ & _ & _ & _ & ->). }
  destruct Hs as
    [h d h' a H|h d h' a H|h src cls h' a H|h src lo hi h' a H|h src z h' a H
    |h a k v h' H|h a k v h' H|h a k v h' H].
  - destruct (new_self_owned_aux _ _ _ _ H) as [_ Hself].
    destruct (new_shape _ _ _ _ H) as (h1 & p & o & Has & Hp & Hcl & _ & Ha & ->).
    destruct (asarray_shape _ _ _ _ Has) as (Hcs & _ & _). simpl in *.
    rewrite Hcs in Hc. apply lookup_app_Some in Hc as [Hc|[_ Hc]]; [by left|].
    right. destruct (c - length (ctors h))%nat as [|[|?]]; simpl in Hc.
    + injection Hc as <-. left. exists o. split; [|done].
      rewrite lookup_app_l; [done|]. by eapply lookup_lt_Some.
    + injection Hc as <-. by right.
    + done.
  - destruct (asarray_shape _ _ _ _ H) as (Hcs & _ & _). rewrite Hcs in Hc. by left.
  - unfold np.view in H. inv_ok.
    edestruct derive_new_ctors as [?|?]; eauto using lookup_lt_Some.
  - unfold np.getitem_slice in H. inv_ok.
    edestruct derive_new_ctors as [?|?]; eauto using lookup_lt_Some.
  - unfold np.add_scalar in H. inv_ok. unfold alloc_buf in H. apply Ok_inj in H.
    edestruct derive_new_ctors as [?|?];
      [eapply heap_ok_alloc_buf, Hok| |exact H|exact Hc|by left|by right; left].
    simpl. by eapply lookup_lt_Some.
  - erewrite Hset in Hc by done. by left.
  - apply at_set_Ok in H as (w' & _ & H). erewrite Hset in Hc by done. by left.
  - apply at_add_Ok in H as (w' & x & y & _ & _ & _ & H).
    erewrite Hset in Hc by done. by left.
Qed.

Lemma plain_step h h' w :
  step h h' →
  (∃ ow, objs h !! w = Some ow ∧ ob_class ow = cls_ndarray) →
  ∃ ow, objs h' !! w = Some ow ∧ ob_class ow = cls_ndarray.
Proof.
  intros Hs (ow & Hw & Hc). destruct (step_extends _ _ Hs) as (os & _ & -> & _).
  exists ow. split; [|done]. rewrite lookup_app_l; [done|]. by eapply lookup_lt_Some.
Qed.

(** X3: in every store the program can reach, the owner of a constructor
    is either a baseline array or an Augmented Array whose own [at] is
    self-owned.  So an Augmented Array whose [at] is not self-owned, such
    as a view, slice or arithmetic result of another Augmented Array, never
    owns a constructor (a baseline view of an Augmented Array can own
    one). *)
Theorem owner_is_plain_or_self_owned h c w :
  reachable h → ctors h !! c = Some (AtCtor w) →
  (∃ ow, objs h !! w = Some ow ∧ ob_class ow = cls_ndarray) ∨ self_owned h w.
Proof.
  intros Hr. revert c w. revert h Hr. unfold reachable.
  apply (rtc_ind_r (λ h, ∀ c w, ctors h !! c = Some (AtCtor w) →
           (∃ ow, objs h !! w = Some ow ∧ ob_class ow = cls_ndarray) ∨
           self_owned h w)).
  - intros c w Hc. simpl in Hc. by rewrite lookup_nil in Hc.
  - intros y z Hry Hs IH c w Hc.
    destruct (step_new_ctors y z c w Hs (reachable_ok y Hry) Hc) as [Hold|[?|?]];
      [|by left|by right].
    destruct (IH c w Hold) as [Hp|Hself].
    + left. by eapply plain_step.
    + right. by eapply at_owner_step.
Qed.

Lemma owner_is_plain_or_self_owned_witness :
  reachable heap_AB ∧ ctors heap_AB !! 1%nat = Some (AtCtor 1) ∧
  ((∃ ow, objs heap_AB !! 1%nat = Some ow ∧ ob_class ow = cls_ndarray) ∨
   self_owned heap_AB 1).
Proof.
  split; [apply reachable_heap_AB|]. split; [reflexivity|].
  exact (owner_is_plain_or_self_owned heap_AB 1 1 reachable_heap_AB eq_refl).
Defined.

(** *** The constructor shares its input's data *)

Lemma asarray_arr_geometry h p op h1 p1 :
  objs h !! p = Some op →
  np.asarray h (FromArr p) = Ok (h1, p1) →
  bufs h1 = bufs h ∧
  (∃ os, objs h1 = objs h ++ os) ∧
  ∃ o1, objs h1 !! p1 = Some o1 ∧
        ob_base o1 = ob_base op ∧ ob_off o1 = ob_off op ∧ ob_len o1 = ob_len op.
Proof.
  intros Hp. simpl. unfold get_obj. rewrite Hp. simpl.
  destruct (ob_class op); simpl; intros H; apply Ok_inj in H.
  - injection H as <- <-. split; [done|]. split; [exists []; by rewrite app_nil_r|].
    eauto.
  - unfold alloc_obj in H. injection H as <- <-. simpl. split; [done|].
    split; [eauto|]. eexists. split; [by apply list_lookup_middle|done].
Qed.

(** X4: in a program whose arrays hold integers of their dtype, building
    an Augmented Array from an existing array copies
    nothing.  The new array is a distinct object on the very elements of
    its input, the input's own [at] is left as it was, and whatever an
    [at[k].set(v)] on the new array stores (for a key valid for it and a
    value the baseline library accepts) is read back through the input
    array. *)
Theorem new_shares_input_data h p :
  int_reachable h → is_Some (objs h !! p) →
  ∃ h' a oa,
    array.__new__ h (FromArr p) = Ok (h', a) ∧ objs h' !! a = Some oa ∧
    a ≠ p ∧ bufs h' = bufs h ∧ same_window h' a p ∧
    getattr_at h' p = getattr_at h p ∧
    ∀ k v sel vals,
      np.resolve (ob_len oa) k = Ok sel →
      np.store_values (ob_dtype oa) sel v = Ok vals →
      ∃ h'', at_set h' a k v = Ok (h'', tt) ∧
             ∃ x, np.getitem h'' p k = Ok x ∧ value_elems x = vals.
Proof.
  intros Hir [op Hp]. pose proof (int_reachable_reachable h Hir) as Hr.
  destruct (new_total h (FromArr p)) as (h' & a & Hn); [by exists op|].
  exists h', a.
  assert (reachable h') as Hr'.
  { eapply rtc_r; [exact Hr|]. by eapply step_new. }
  pose proof (reachable_ok h' Hr') as Hok'.
  destruct (new_self_owned_aux _ _ _ _ Hn) as [_ Hself].
  destruct (new_shape _ _ _ _ Hn) as (h1 & p1 & o1 & Has & Hp1 & _ & _ & Ha & Hh').
  destruct (asarray_arr_geometry h p op h1 p1 Hp Has)
    as (Hb1 & (os & Hos) & (o1' & Hp1' & Hbase & Hoff & Hlen)).
  assert (o1' = o1) as -> by congruence.
  pose proof (lookup_lt_Some _ _ _ Hp) as Hpl.
  assert (length (objs h) ≤ length (objs h1))%nat as Hle.
  { rewrite Hos, length_app. lia. }
  assert (objs h' !! p = Some op) as Hp'.
  { subst h'. simpl. rewrite Hos, <- app_assoc. by rewrite lookup_app_l. }
  assert (objs h' !! a
          = Some (NdObj cls_array (ob_base o1) (ob_off o1) (ob_len o1) (ob_dtype o1)
                        (Some (S (length (ctors h1)))))) as Hoa.
  { subst h' a. simpl. by apply list_lookup_middle. }
  eexists. split; [done|]. split; [exact Hoa|].
  split; [lia|]. split; [subst h'; simpl; congruence|].
  split.
  { eexists _, op. split; [exact Hoa|]. split; [exact Hp'|]. simpl. done. }
  split.
  { unfold getattr_at. by rewrite Hp', Hp. }
  intros k v sel vals Hres Hb.
  destruct (setitem_read h' a _ k v sel vals Hok' Hoa Hres Hb)
    as (h'' & Hset & _ & _ & Hread).
  exists h''. split; [apply at_set_Ok; eauto|].
  apply (Hread p op Hp'); simpl; congruence.
Qed.

Lemma new_shares_input_data_witness :
  int_reachable heap_P ∧ is_Some (objs heap_P !! 0%nat) ∧
  ∃ h' a oa,
    array.__new__ heap_P (FromArr 0) = Ok (h', a) ∧ objs h' !! a = Some oa ∧
    a ≠ 0%nat ∧ bufs h' = bufs heap_P ∧ same_window h' a 0 ∧
    getattr_at h' 0 = getattr_at heap_P 0 ∧
    ∀ k v sel vals,
      np.resolve (ob_len oa) k = Ok sel →
      np.store_values (ob_dtype oa) sel v = Ok vals →
      ∃ h'', at_set h' a k v = Ok (h'', tt) ∧
             ∃ x, np.getitem h'' 0%nat k = Ok x ∧ value_elems x = vals.
Proof.
  assert (is_Some (objs heap_P !! 0%nat)) as Hp by (eexists; reflexivity).
  split; [apply int_reachable_heap_P|]. split; [exact Hp|].
  exact (new_shares_input_data heap_P 0 int_reachable_heap_P Hp).
Defined.

(** *** Arrays derived from an Augmented Array *)

Lemma derived_from_getattr h src c h' r :
  getattr_at h src = Some c → derived_from h src h' r →
  ∃ os o,
    objs h !! src = Some os ∧
    r = length (objs h) ∧ ctors h' = ctors h ∧
    objs h' = objs h ++ [with_at c o] ∧ ob_class o = cls_array ∧
    (bufs h' = bufs h ∨ (∃ l, bufs h' = bufs h ++ [l] ∧ ob_base o = length (bufs h))).
Proof.
  intros Hg Hd. pose proof Hg as Hg'.
  apply getattr_at_Some in Hg' as (os & Hos & Hcs & Hat).
  pose proof (lookup_lt_Some _ _ _ Hos) as Hl.
  exists os.
  destruct Hd as [H|[(lo & hi & H)|(z & H)]].
  - unfold np.view, get_obj in H. rewrite Hos in H. simpl in H. apply Ok_inj in H.
    rewrite (derive_reuse _ _ _ c) in H by done. injection H as <- <-.
    eexists. simpl. repeat (split; [done|]). by left.
  - unfold np.getitem_slice, get_obj in H. rewrite Hos in H. simpl in H.
    apply Ok_inj in H.
    rewrite (derive_reuse _ _ _ c) in H by done. injection H as <- <-.
    eexists. simpl. repeat (split; [done|]). by left.
  - unfold np.add_scalar, get_obj in H. rewrite Hos in H. simpl in H.
    apply bind_Ok in H as (buf & Hbuf & H). unfold alloc_buf in H. apply Ok_inj in H.
    rewrite (derive_reuse _ _ _ c) in H by done. injection H as <- <-.
    eexists. simpl. repeat (split; [done|]). right. eauto.
Qed.

Lemma derived_from_at h src h' r :
  heap_ok h → augmented h src → derived_from h src h' r →
  ∃ os c o,
    objs h !! src = Some os ∧ getattr_at h src = Some c ∧
    r = length (objs h) ∧ ctors h' = ctors h ∧
    objs h' = objs h ++ [with_at c o] ∧ ob_class o = cls_array ∧
    (bufs h' = bufs h ∨ (∃ l, bufs h' = bufs h ++ [l] ∧ ob_base o = length (bufs h))).
Proof.
  intros Hok (os & Hos & Hcs) Hd.
  pose proof (ok_at h Hok src os Hos) as Ha. rewrite Hcs in Ha.
  destruct Ha as (c & Hat & _).
  assert (getattr_at h src = Some c) as Hg by (apply getattr_at_Some; eauto).
  destruct (derived_from_getattr h src c h' r Hg Hd) as (os' & o & ? & ? & ? & ? & ? & ?).
  exists os', c, o. done.
Qed.

(** X5: for an array [B] derived (a view, a slice or an arithmetic
    result) from an Augmented Array [A] that has an [at] attribute, [B.at]
    is that very constructor: subscripting, [set] and [add] through [B.at]
    give exactly what they give through [A.at], store and errors alike. *)
Theorem derived_at_is_source_at h src c h' r :
  getattr_at h src = Some c → derived_from h src h' r →
  r ≠ src ∧ augmented h' r ∧
  getattr_at h' r = Some c ∧ getattr_at h' src = Some c ∧
  ∀ k, at_subscript h' r k = at_subscript h' src k ∧
       ∀ v, at_set h' r k v = at_set h' src k v ∧
            at_add h' r k v = at_add h' src k v.
Proof.
  intros Hg Hd.
  destruct (derived_from_getattr h src c h' r Hg Hd)
    as (os & o & Hos & -> & _ & Hobjs & Hc & _).
  pose proof (lookup_lt_Some _ _ _ Hos) as Hl.
  split; [lia|].
  split.
  { exists (with_at c o). rewrite Hobjs. split; [by apply list_lookup_middle|done]. }
  assert (getattr_at h' (length (objs h)) = Some c) as Hgr.
  { apply getattr_at_Some. exists (with_at c o). rewrite Hobjs.
    split; [by apply list_lookup_middle|done]. }
  assert (getattr_at h' src = Some c) as Hgs.
  { apply getattr_at_Some in Hg as (os' & Hos' & ? & ?). apply getattr_at_Some.
    exists os'. rewrite Hobjs, lookup_app_l by done. done. }
  split; [done|]. split; [done|].
  intros k.
  assert (at_subscript h' (length (objs h)) k = at_subscript h' src k) as Hsub.
  { unfold at_subscript, get_at. by rewrite Hgr, Hgs. }
  split; [done|]. intros v. unfold at_set, at_add. by rewrite Hsub.
Qed.

Lemma derived_at_is_source_at_witness :
  getattr_at heap_A 1 = Some 1%nat ∧ derived_from heap_A 1 heap_AB 2 ∧
  (2 ≠ 1)%nat ∧ augmented heap_AB 2 ∧
  getattr_at heap_AB 2 = Some 1%nat ∧ getattr_at heap_AB 1 = Some 1%nat ∧
  ∀ k, at_subscript heap_AB 2 k = at_subscript heap_AB 1 k ∧
       ∀ v, at_set heap_AB 2 k v = at_set heap_AB 1 k v ∧
            at_add heap_AB 2 k v = at_add heap_AB 1 k v.
Proof.
  assert (derived_from heap_A 1 heap_AB 2) as Hd.
  { right. left. exists (Some 1), None. reflexivity. }
  split; [reflexivity|]. split; [exact Hd|].
  exact (derived_at_is_source_at heap_A 1 1 heap_AB 2 eq_refl Hd).
Defined.

(** X6: an arithmetic result [B = A + z] of an Augmented Array has its
    own data, and its [at] belongs to another array; so no
    [B.at[k].set(v)] and no [B.at[k].add(v)] ever changes an element of
    [B]. *)
Theorem arithmetic_result_not_updated h src z h' r :
  reachable h → augmented h src →
  np.add_scalar array.finalize h src z = Ok (h', r) →
  ∃ l, elems h' r = Ok l ∧
    ∀ k v h'',
      at_set h' r k v = Ok (h'', tt) ∨ at_add h' r k v = Ok (h'', tt) →
      elems h'' r = Ok l.
Proof.
  intros Hr Ha Hadd. pose proof (reachable_ok h Hr) as Hok.
  assert (derived_from h src h' r) as Hd by (right; right; eauto).
  destruct (derived_from_at h src h' r Hok Ha Hd)
    as (os & c & o & Hos & Hg & -> & Hcs & Hobjs & Hc & Hb).
  assert (∃ l, bufs h' = bufs h ++ [l] ∧ ob_base o = length (bufs h)) as (l0 & Hb' & Hbase).
  { destruct Ha as (os0 & Hos0 & Hcs0).
    assert (os0 = os) as -> by congruence.
    unfold np.add_scalar, get_obj in Hadd. rewrite Hos in Hadd. simpl in Hadd.
    apply bind_Ok in Hadd as (buf & Hbuf & Hadd). unfold alloc_buf in Hadd.
    apply Ok_inj in Hadd. rewrite (derive_reuse _ _ _ c) in Hadd;
      [|done|simpl; by eapply lookup_lt_Some|done].
    injection Hadd as <-. simpl in *.
    apply app_inj_tail in Hobjs as [_ Ho].
    eexists. split; [done|]. apply (f_equal ob_base) in Ho. simpl in Ho. done. }
  assert (objs h' !! length (objs h) = Some (with_at c o)) as Hor.
  { rewrite Hobjs. by apply list_lookup_middle. }
  assert (bufs h' !! ob_base o = Some l0) as Hbr.
  { rewrite Hb', Hbase. by apply list_lookup_middle. }
  exists (window (with_at c o) l0). split.
  { unfold elems, get_obj. rewrite Hor. simpl. by rewrite Hbr. }
  intros k v h'' Hup.
  assert (∃ w y, at_owner h' (length (objs h)) w ∧ np.setitem h' w k y = Ok h'')
    as (w & y & Hw & Hset).
  { destruct Hup as [H|H].
    - apply at_set_Ok in H as (w & ? & ?). eauto.
    - apply at_add_Ok in H as (w & x & y & ? & _ & _ & ?). eauto. }
  destruct Hw as (c' & Hgr & Hcw).
  apply getattr_at_Some in Hgr as (or' & Hor' & _ & Hat').
  rewrite Hor in Hor'. injection Hor' as <-. simpl in Hat'. injection Hat' as <-.
  rewrite Hcs in Hcw.
  pose proof (ok_owner h Hok _ _ Hcw) as Hwl. simpl in Hwl.
  destruct (lookup_lt_is_Some_2 _ _ Hwl) as [ow How].
  destruct (ok_window h Hok w ow How) as (bw & Hbw & _).
  pose proof (lookup_lt_Some _ _ _ Hbw) as Hbl.
  apply setitem_Ok in Hset as (ow' & buf & sel & vals & How' & _ & _ & _ & ->).
  rewrite Hobjs, lookup_app_l in How' by done.
  assert (ow' = ow) as -> by congruence.
  unfold elems, get_obj. simpl. rewrite Hor. simpl.
  rewrite list_lookup_insert_ne by lia. by rewrite Hbr.
Qed.

Lemma arithmetic_result_not_updated_witness :
  reachable heap_A ∧ augmented heap_A 1 ∧
  np.add_scalar array.finalize heap_A 1 5
  = Ok (Heap [[1; 2; 3; 4]; [6; 7; 8; 9]]
             (objs heap_A ++ [NdObj cls_array 1 0 4 int64 (Some 1%nat)])
             (ctors heap_A), 2%nat) ∧
  ∃ l, elems (Heap [[1; 2; 3; 4]; [6; 7; 8; 9]]
                   (objs heap_A ++ [NdObj cls_array 1 0 4 int64 (Some 1%nat)])
                   (ctors heap_A)) 2 = Ok l ∧
    ∀ k v h'',
      at_set (Heap [[1; 2; 3; 4]; [6; 7; 8; 9]]
                   (objs heap_A ++ [NdObj cls_array 1 0 4 int64 (Some 1%nat)])
                   (ctors heap_A)) 2 k v = Ok (h'', tt) ∨
      at_add (Heap [[1; 2; 3; 4]; [6; 7; 8; 9]]
                   (objs heap_A ++ [NdObj cls_array 1 0 4 int64 (Some 1%nat)])
                   (ctors heap_A)) 2 k v = Ok (h'', tt) →
      elems h'' 2 = Ok l.
Proof.
  assert (augmented heap_A 1) as Ha by (eexists; split; reflexivity).
  split; [apply reachable_heap_A|]. split; [exact Ha|]. split; [reflexivity|].
  exact (arithmetic_result_not_updated heap_A 1 5 _ 2 reachable_heap_A Ha eq_refl).
Defined.

(** *** Edge cases and composition of updates *)




Lemma list_inserts_overwrite {A : Type} (i : nat) (k1 k2 l : list A) :
  length k1 = length k2 →
  list_inserts i k2 (list_inserts i k1 l) = list_inserts i k2 l.
Proof.
  intros Hk. apply list_eq. intros j.
  destruct (decide (j < i)%nat).
  { by rewrite !list_lookup_inserts_lt by done. }
  destruct (decide (i + length k2 ≤ j)%nat).
  { by rewrite !list_lookup_inserts_ge by lia. }
  destruct (decide (j < length l)%nat).
  - by rewrite !list_lookup_inserts by (rewrite ?length_inserts; lia).
  - rewrite !(proj2 (lookup_ge_None _ _)); [done|rewrite ?length_inserts; lia..].
Qed.

Lemma setitem_overwrite h w k y h1 v :
  np.setitem h w k y = Ok h1 → np.setitem h1 w k v = np.setitem h w k v.
Proof.
  intros H.
  apply setitem_Ok in H as (o & buf & sel & vals & Ho & Hbuf & Hres & Hb & ->).
  pose proof (store_values_length _ _ _ _ Hb) as Hl1.
  unfold np.setitem, get_obj. simpl. rewrite Ho. simpl.
  rewrite Hres. simpl.
  destruct (np.store_values (ob_dtype o) sel v) as [vals2|e] eqn:Hb2; simpl; [|done].
  pose proof (store_values_length _ _ _ _ Hb2) as Hl2.
  rewrite list_lookup_insert_eq by (by eapply lookup_lt_Some). rewrite Hbuf. simpl.
  rewrite list_inserts_overwrite by congruence.
  by rewrite list_insert_insert_eq.
Qed.

Lemma at_update_owner h a k v h1 :
  at_set h a k v = Ok (h1, tt) ∨ at_add h a k v = Ok (h1, tt) →
  ∃ w y, at_owner h a w ∧ at_owner h1 a w ∧ np.setitem h w k y = Ok h1.
Proof.
  intros H.
  assert (∃ w y, at_owner h a w ∧ np.setitem h w k y = Ok h1) as (w & y & Hw & Hset).
  { destruct H as [H|H].
    - apply at_set_Ok in H as (w & ? & ?). eauto.
    - apply at_add_Ok in H as (w & x & y & ? & _ & _ & ?). eauto. }
  exists w, y. split; [done|]. split; [|done].
  apply setitem_Ok in Hset as (? & ? & ? & ? & _ & _ & _ & _ & ->).
  destruct Hw as (c & Hg & Hc). exists c. split; [|done].
  apply getattr_at_Some in Hg. by apply getattr_at_Some.
Qed.

Lemma at_set_owner h a w k v :
  at_owner h a w →
  at_set h a k v = (h' ← np.setitem h w k v; mret (h', tt)).
Proof.
  intros (c & Hg & Hc).
  assert (at_subscript h a k = Ok (AtOp w k)) as Hsub
    by (apply at_subscript_Ok; eauto).
  unfold at_set. by rewrite Hsub.
Qed.

(** X8: the last write wins: after an [A.at[k].set] or [A.at[k].add], a
    [set] at the same key gives exactly the result, store or error, that it
    gives without the earlier update.  In particular [set] is idempotent. *)
Theorem at_set_last_write_wins h a k v1 h1 :
  at_set h a k v1 = Ok (h1, tt) ∨ at_add h a k v1 = Ok (h1, tt) →
  (∀ v2, at_set h1 a k v2 = at_set h a k v2) ∧
  (at_set h a k v1 = Ok (h1, tt) → at_set h1 a k v1 = Ok (h1, tt)).
Proof.
  intros H. destruct (at_update_owner h a k v1 h1 H) as (w & y & Hw & Hw1 & Hset).
  assert (∀ v2, at_set h1 a k v2 = at_set h a k v2) as Hall.
  { intros v2. rewrite (at_set_owner h1 a w) by done.
    rewrite (at_set_owner h a w) by done.
    by rewrite (setitem_overwrite h w k y h1). }
  split; [done|]. intros Hs. by rewrite Hall.
Qed.

Lemma at_set_last_write_wins_witness :
  (at_set heap_A 1 (KInt 1) (VScalar 10)
   = Ok (Heap [[1; 10; 3; 4]] (objs heap_A) (ctors heap_A), tt) ∨
   at_add heap_A 1 (KInt 1) (VScalar 10)
   = Ok (Heap [[1; 10; 3; 4]] (objs heap_A) (ctors heap_A), tt)) ∧
  (∀ v2, at_set (Heap [[1; 10; 3; 4]] (objs heap_A) (ctors heap_A)) 1 (KInt 1) v2
         = at_set heap_A 1 (KInt 1) v2) ∧
  (at_set heap_A 1 (KInt 1) (VScalar 10)
   = Ok (Heap [[1; 10; 3; 4]] (objs heap_A) (ctors heap_A), tt) →
   at_set (Heap [[1; 10; 3; 4]] (objs heap_A) (ctors heap_A)) 1 (KInt 1) (VScalar 10)
   = Ok (Heap [[1; 10; 3; 4]] (objs heap_A) (ctors heap_A), tt)).
Proof.
  split; [left; reflexivity|].
  exact (at_set_last_write_wins heap_A 1 (KInt 1) (VScalar 10) _ (or_introl eq_refl)).
Defined.






(** *** Construction leaves the existing arrays alone *)

Lemma asarray_extends h d h1 p :
  np.asarray h d = Ok (h1, p) →
  ∃ bs os, bufs h1 = bufs h ++ bs ∧ objs h1 = objs h ++ os ∧ ctors h1 = ctors h.
Proof.
  destruct d as [l|a]; simpl.
  - intros [= <- <-]. simpl. eauto.
  - intros H. inv_ok. destruct (ob_class x); simpl in H; apply Ok_inj in H.
    + injection H as <- <-. exists [], []. by rewrite !app_nil_r.
    + unfold alloc_obj in H. injection H as <- <-. simpl. exists []. rewrite app_nil_r.
      eauto.
Qed.

(** X10: the module-level array constructor only adds to the store: every
    array that existed before keeps its elements and its [at] attribute,
    with the same owner, whatever the input. *)
Theorem array_new_frame h d h' a :
  array.__new__ h d = Ok (h', a) →
  (length (objs h) ≤ a)%nat ∧
  ∀ a0,
    (∀ l, elems h a0 = Ok l → elems h' a0 = Ok l) ∧
    (∀ c, getattr_at h a0 = Some c → getattr_at h' a0 = Some c) ∧
    (∀ w, at_owner h a0 w → at_owner h' a0 w).
Proof.
  intros Hn.
  destruct (new_shape _ _ _ _ Hn) as (h1 & p & o & Has & _ & _ & _ & Ha & Hh').
  destruct (asarray_extends _ _ _ _ Has) as (bs & os & Hb & Ho & Hc).
  assert (∀ a0 o0, objs h !! a0 = Some o0 → objs h' !! a0 = Some o0) as Hobj.
  { intros a0 o0 H0. subst h'. simpl. rewrite Ho, <- app_assoc.
    rewrite lookup_app_l; [done|]. by eapply lookup_lt_Some. }
  assert (∀ b buf, bufs h !! b = Some buf → bufs h' !! b = Some buf) as Hbuf.
  { intros b buf H0. subst h'. simpl. rewrite Hb.
    rewrite lookup_app_l; [done|]. by eapply lookup_lt_Some. }
  assert (∀ c k, ctors h !! c = Some k → ctors h' !! c = Some k) as Hctor.
  { intros c k H0. subst h'. simpl. rewrite Hc.
    rewrite lookup_app_l; [done|]. by eapply lookup_lt_Some. }
  assert (∀ a0 c, getattr_at h a0 = Some c → getattr_at h' a0 = Some c) as Hget.
  { intros a0 c Hg. apply getattr_at_Some in Hg as (o0 & H0 & ? & ?).
    apply getattr_at_Some. exists o0. eauto. }
  split; [subst a; rewrite Ho, length_app; lia|].
  intros a0. split; [|split; [by apply Hget|]].
  - intros l He. unfold elems, get_obj in *. inv_ok.
    rewrite (Hobj _ _ H). simpl. rewrite (Hbuf _ _ H0). simpl. by rewrite He.
  - intros w (c & Hg & Hcw). exists c. eauto.
Qed.

Lemma array_new_frame_witness :
  array.__new__ heap_AB (FromArr 2)
  = Ok (Heap [[1; 2; 3; 4]]
             (objs heap_AB ++ [NdObj cls_ndarray 0 1 3 int64 None;
                               NdObj cls_array 0 1 3 int64 (Some 3%nat)])
             (ctors heap_AB ++ [AtCtor 3; AtCtor 4]), 4%nat) ∧
  (length (objs heap_AB) ≤ 4)%nat ∧
  ∀ a0,
    (∀ l, elems heap_AB a0 = Ok l →
          elems (Heap [[1; 2; 3; 4]]
                      (objs heap_AB ++ [NdObj cls_ndarray 0 1 3 int64 None;
                                        NdObj cls_array 0 1 3 int64 (Some 3%nat)])
                      (ctors heap_AB ++ [AtCtor 3; AtCtor 4])) a0 = Ok l) ∧
    (∀ c, getattr_at heap_AB a0 = Some c →
          getattr_at (Heap [[1; 2; 3; 4]]
                           (objs heap_AB ++ [NdObj cls_ndarray 0 1 3 int64 None;
                                             NdObj cls_array 0 1 3 int64 (Some 3%nat)])
                           (ctors heap_AB ++ [AtCtor 3; AtCtor 4])) a0 = Some c) ∧
    (∀ w, at_owner heap_AB a0 w →
          at_owner (Heap [[1; 2; 3; 4]]
                         (objs heap_AB ++ [NdObj cls_ndarray 0 1 3 int64 None;
                                           NdObj cls_array 0 1 3 int64 (Some 3%nat)])
                         (ctors heap_AB ++ [AtCtor 3; AtCtor 4])) a0 w).
Proof.
  split; [reflexivity|].
  exact (array_new_frame heap_AB (FromArr 2) _ 4 eq_refl).
Defined.
